(** * Request pipeline and route-graph assembly of the routing API

    A shallow embedding of these pieces of the repository:

    - the generic lambda handler ([Injector], [APIGLambdaHandler]): request
      parsing and validation, the two-phase injector, the business-logic
      call and the response validation, with JavaScript exceptions made
      explicit, and the part of Joi's object validation it relies on;
    - the quote endpoint ([QuoteHandler.handleRequest]) with its token
      resolution and the node/edge construction at its end;
    - the scheduled pool-caching job.

    JavaScript exceptions are values of [outcome]; the logger is a trace
    threaded through the handler. *)

From stdpp Require Import base option list gmap strings pretty.

Open Scope string_scope.
Set Warnings "-register-all,-clear-no-such-hyp".

(** ** JavaScript values and exceptions *)

(** A thrown value. [TypeError] is what a property access on [undefined]
    raises, [SyntaxError] what [JSON.parse] raises, [Error] is
    [new Error(message)]. *)
Inductive JsError : Type :=
| Error (message : string)
| TypeError (message : string)
| SyntaxError (message : string).

(** The completion of a call: a returned value or a thrown error. *)
Inductive outcome (A : Type) : Type :=
| Return (a : A)
| Throw (e : JsError).
Arguments Return {A} a.
Arguments Throw {A} e.

#[global] Instance outcome_ret : MRet outcome := fun A a => Return a.
#[global] Instance outcome_bind : MBind outcome := fun A B f m =>
  match m with
  | Return a => f a
  | Throw e => Throw e
  end.

(** [n.toString()] of an integral number or of a big integer. *)
Definition toString (n : Z) : string := pretty n.

(** A JavaScript value as the handler meets them: JSON-shaped data, and
    [BigInt], which [JSON.stringify] refuses to serialise. An object is its
    list of own properties in insertion order; a property holding
    [VUndefined] is what destructuring a missing property yields. Numeric
    payloads play no part below and are kept integral. *)
Inductive value : Type :=
| VUndefined
| VNull
| VBool (b : bool)
| VNum (n : Z)
| VStr (s : string)
| VBigInt (n : Z)
| VArr (items : list value)
| VObj (props : list (string * value)).

Definition is_undefined (v : value) : bool :=
  match v with
  | VUndefined => true
  | _ => false
  end.

(** [o[k]] *)
Fixpoint obj_get (k : string) (o : list (string * value)) : option value :=
  match o with
  | [] => None
  | (k', v) :: o' => if decide (k = k') then Some v else obj_get k o'
  end.

(** [o[k] = v]: an existing property keeps its position. *)
Fixpoint obj_set (k : string) (v : value) (o : list (string * value))
    : list (string * value) :=
  match o with
  | [] => [(k, v)]
  | (k', v') :: o' =>
    if decide (k = k') then (k, v) :: o' else (k', v') :: obj_set k v o'
  end.

(** [delete o[k]] *)
Definition obj_delete (k : string) (o : list (string * value))
    : list (string * value) :=
  filter (fun kv => kv.1 ≠ k) o.

(** ** Schema validation (the part of Joi the handler relies on) *)

Module Joi.

(** The double quote Joi wraps labels in. *)
Definition dquote : string := String (Ascii.ascii_of_nat 34) EmptyString.

Definition label (k : string) : string := dquote ++ k ++ dquote.

(** The two preferences the handler passes to [validate]. *)
Record ValidationOptions : Type := {
  allowUnknown : bool;
  stripUnknown : bool
}.

(** A key of [Joi.object({...})]. [rule] is the key's own schema applied to
    the item found under the key, [undefined] when there is none: it
    rejects with the text that follows the label in the message (a
    [.required()] key rejects [undefined]), or yields the value to store (a
    converted value, a [.default()] for a missing item, [undefined] for
    none). [strip] is the key's [.strip()] flag. *)
Record KeySchema : Type := {
  strip : bool;
  rule : value -> string + value
}.

(** [.pattern(regex, schema, { fallthrough })]: the keys the pattern
    matches and the rule for their items. *)
Record PatternSchema : Type := {
  matches : string -> bool;
  pattern_rule : value -> string + value;
  fallthrough : bool
}.

(** [.rename(from, to, { alias, multiple, override, ignoreUndefined })]
    with a string [from]. *)
Record Rename : Type := {
  rename_from : string;
  rename_to : string;
  alias : bool;
  multiple : bool;
  override : bool;
  ignoreUndefined : bool
}.

(** An object schema. [keys] is [None] for [Joi.object()] without keys,
    else the declared keys in declaration order; [patterns] and [renames]
    are the [.pattern(...)] and [.rename(...)] calls in order; [unknown] is
    the schema's own [.unknown()] or [.unknown(false)] flag, [None] when
    unset. Dependencies between keys ([.and], [.or], [.with], ...),
    [matches] constraints of patterns and renames by regular expression are
    not covered. *)
Record ObjectSchema : Type := {
  keys : option (list (string * KeySchema));
  patterns : list PatternSchema;
  renames : list Rename;
  unknown : option bool
}.

Definition known (children : list (string * KeySchema)) (k : string) : bool :=
  bool_decide (k ∈ children.*1).

(** Some pattern matches the key [k]. *)
Definition matched (ps : list PatternSchema) (k : string) : bool :=
  existsb (fun p => matches p k) ps.

(** The schema declares the key [k] by name. *)
Definition declared (schema : ObjectSchema) (k : string) : bool :=
  known (default [] (keys schema)) k.

(** The schema declares [k] by name or has a pattern matching it. *)
Definition covered (schema : ObjectSchema) (k : string) : bool :=
  declared schema k || matched (patterns schema) k.

(** [k] is the source or the target of one of the schema's renames. *)
Definition renaming (schema : ObjectSchema) (k : string) : bool :=
  bool_decide (k ∈ ((rename_from <$> renames schema) ++
                    (rename_to <$> renames schema))%list).

(** [{ error, value }] as returned by [schema.validate]. *)
Record ValidationResult : Type := {
  error : option string;
  result_value : value
}.

(** The renames in order; [renamed] holds the targets written so far. A
    rename applies when the object has the source property (and, under
    [ignoreUndefined], it does not hold [undefined]); the first conflict
    aborts. *)
Fixpoint rename (rs : list Rename) (renamed : list string)
    (o : list (string * value)) : string + list (string * value) :=
  match rs with
  | [] => inr o
  | r :: rs' =>
    match obj_get (rename_from r) o with
    | None => rename rs' renamed o
    | Some item =>
      if is_undefined item && ignoreUndefined r then rename rs' renamed o
      else if negb (multiple r) && bool_decide (rename_to r ∈ renamed) then
        inl (label "value" ++ " cannot rename " ++ label (rename_from r) ++
             " because multiple renames are disabled and another key was " ++
             "already renamed to " ++ label (rename_to r))
      else if bool_decide (is_Some (obj_get (rename_to r) o)) &&
              negb (override r) &&
              negb (bool_decide (rename_to r ∈ renamed)) then
        inl (label "value" ++ " cannot rename " ++ label (rename_from r) ++
             " because override is disabled and target " ++
             label (rename_to r) ++ " exists")
      else
        let o1 := if is_undefined item then obj_delete (rename_to r) o
                  else obj_set (rename_to r) item o in
        let o2 := if alias r then o1 else obj_delete (rename_from r) o1 in
        rename rs' (rename_to r :: renamed) o2
    end
  end.

(** Declared keys are validated in order; the first failure aborts. A
    stripped key, or one whose rule turns a present item into [undefined],
    is deleted; a value the rule yields is stored under the key. *)
Fixpoint validateKeys (children : list (string * KeySchema))
    (o : list (string * value)) : string + list (string * value) :=
  match children with
  | [] => inr o
  | (k, child) :: children' =>
    let item := default VUndefined (obj_get k o) in
    match rule child item with
    | inl reason => inl (label k ++ reason)
    | inr v' =>
      if strip child || (is_undefined v' && negb (is_undefined item))
      then validateKeys children' (obj_delete k o)
      else if negb (is_undefined v')
      then validateKeys children' (obj_set k v' o)
      else validateKeys children' o
    end
  end.

(** The patterns tried in order on one key that is not declared: [cur] is
    the value the last matching pattern yielded, [None] while no pattern
    matched. Without [fallthrough] the first match ends the search. *)
Fixpoint applyPatterns (ps : list PatternSchema) (k : string) (item : value)
    (cur : option value) : string + option value :=
  match ps with
  | [] => inr cur
  | p :: ps' =>
    if matches p k then
      match pattern_rule p item with
      | inl reason => inl (label k ++ reason)
      | inr v' =>
        if fallthrough p then applyPatterns ps' k item (Some v')
        else inr (Some v')
      end
    else applyPatterns ps' k item cur
  end.

(** The keys not declared by name, in order: a key some pattern matches
    gets the value its rule yields. *)
Fixpoint processPatterns (ps : list PatternSchema) (unprocessed : list string)
    (o : list (string * value)) : string + list (string * value) :=
  match unprocessed with
  | [] => inr o
  | k :: rest =>
    match applyPatterns ps k (default VUndefined (obj_get k o)) None with
    | inl m => inl m
    | inr None => processPatterns ps rest o
    | inr (Some v') => processPatterns ps rest (obj_set k v' o)
    end
  end.

(** The keys neither declared nor matched. Under [stripUnknown] they are
    deleted unless the schema carries an [unknown] flag of its own; those
    that remain are an error unless the schema's flag, or [allowUnknown]
    when there is no flag, lets them through. *)
Definition processUnknown (flag : option bool) (opts : ValidationOptions)
    (unprocessed : list string) (o : list (string * value))
    : string + list (string * value) :=
  let stripping := stripUnknown opts && bool_decide (flag = None) in
  let o' := if stripping then foldr obj_delete o unprocessed else o in
  let unprocessed' := if stripping then [] else unprocessed in
  let forbidUnknown := negb (default (allowUnknown opts) flag) in
  if forbidUnknown then
    match unprocessed' with
    | [] => inr o'
    | k :: _ => inl (label k ++ " is not allowed")
    end
  else inr o'.

(** Without keys and patterns anything is allowed in the object. *)
Definition anythingAllowed (schema : ObjectSchema) : bool :=
  match keys schema, patterns schema with
  | None, [] => true
  | _, _ => false
  end.

(** The schema has no rule to test an object with. *)
Definition noRules (schema : ObjectSchema) : bool :=
  anythingAllowed schema &&
  match renames schema with
  | [] => true
  | _ :: _ => false
  end.

(** [schema.validate(v, opts)] for an object schema that is not itself
    [.required()]: the renames, the declared keys, the patterns, then what
    is left over. *)
Definition validate (schema : ObjectSchema) (v : value)
    (opts : ValidationOptions) : ValidationResult :=
  match v with
  | VUndefined => {| error := None; result_value := VUndefined |}
  | VObj o =>
    if noRules schema then {| error := None; result_value := v |}
    else
      match rename (renames schema) [] o with
      | inl m => {| error := Some m; result_value := v |}
      | inr o1 =>
        if anythingAllowed schema
        then {| error := None; result_value := VObj o1 |}
        else
          let children := default [] (keys schema) in
          let unprocessed :=
            filter (fun k => known children k = false) o1.*1 in
          match validateKeys children o1 with
          | inl m => {| error := Some m; result_value := v |}
          | inr o2 =>
            match processPatterns (patterns schema) unprocessed o2 with
            | inl m => {| error := Some m; result_value := v |}
            | inr o3 =>
              let unprocessed' :=
                filter (fun k => matched (patterns schema) k = false)
                  unprocessed in
              match processUnknown (unknown schema) opts unprocessed' o3 with
              | inl m => {| error := Some m; result_value := v |}
              | inr o4 => {| error := None; result_value := VObj o4 |}
              end
            end
          end
      end
  | _ => {| error := Some (label "value" ++ " must be of type object");
            result_value := v |}
  end.

End Joi.

(** ** The lambda handler *)

Module Handler.

(** The event and context fields the handler reads. [event_body] is
    [string | null]. *)
Record APIGatewayProxyEvent : Type := { event_body : option string }.

Record Context : Type := { awsRequestId : string }.

Record APIGatewayProxyResult : Type := {
  statusCode : Z;
  body : string
}.

(** A bunyan logger, identified by the fields it was created with. *)
Record Logger : Type := {
  logger_name : string;
  requestId : string
}.

Inductive Level : Type := INFO | ERROR.

(** One call of [log.info] or [log.error]: the logger used, the level, the
    [err] field when there is one, and the message. *)
Record LogRecord : Type := {
  record_logger : Logger;
  record_level : Level;
  record_err : option JsError;
  record_msg : string
}.

(** [BaseRInj]: request dependencies carry a logger. *)
Class BaseRInj (RInj : Type) : Type := { log : RInj -> Logger }.

(** What the business logic receives. *)
Record HandleRequestParams (CInj RInj : Type) : Type := {
  params_context : Context;
  params_event : APIGatewayProxyEvent;
  params_request : value;
  params_containerInjected : CInj;
  params_requestInjected : RInj
}.
Arguments params_context {CInj RInj} _.
Arguments params_event {CInj RInj} _.
Arguments params_request {CInj RInj} _.
Arguments params_containerInjected {CInj RInj} _.
Arguments params_requestInjected {CInj RInj} _.

(** The object [handleRequest] resolves to, as the handler destructures it:
    a property that is not there reads as [VUndefined]. *)
Record HandleRequestResult : Type := {
  result_statusCode : Z;
  result_body : value;
  result_errorCode : value;
  result_detail : value
}.

(** [Response<Res>]: [{ statusCode, body }]. *)
Definition Response (code : Z) (b : value) : HandleRequestResult :=
  {| result_statusCode := code; result_body := b;
     result_errorCode := VUndefined; result_detail := VUndefined |}.

(** [ErrorResponse]: [{ statusCode, errorCode, detail? }]. *)
Definition ErrorResponse (code : Z) (errorCode : string) (detail : option string)
    : HandleRequestResult :=
  {| result_statusCode := code; result_body := VUndefined;
     result_errorCode := VStr errorCode;
     result_detail := from_option VStr VUndefined detail |}.

(** The status codes the [ErrorResponse] type admits. *)
Definition errorStatusCodes : list Z := [400; 403; 404; 408; 409; 500]%Z.

(** [JSON.parse] and [JSON.stringify] of the host; either may throw. *)
Record JSONRuntime : Type := {
  JSON_parse : string -> outcome value;
  JSON_stringify : value -> outcome string
}.

(** *** Injector *)

(** The abstract class with its private field. [CInj] stands for the
    values a container can be other than [undefined]; [None] is
    [undefined], in the field as well as in what [buildContainerInjected]
    resolves to. *)
Record Injector (CInj RInj MetricsLogger : Type) : Type := {
  containerInjected : option CInj;
  getRequestInjected :
    CInj -> value -> APIGatewayProxyEvent -> Context -> Logger ->
    MetricsLogger -> outcome RInj;
  buildContainerInjected : outcome (option CInj)
}.
Arguments containerInjected {CInj RInj MetricsLogger} _.
Arguments getRequestInjected {CInj RInj MetricsLogger} _.
Arguments buildContainerInjected {CInj RInj MetricsLogger} _.

Section InjectorMethods.
Context {CInj RInj MetricsLogger : Type}.
Local Abbreviation Injector := (Injector CInj RInj MetricsLogger).

(** [new SomeInjector()]: the field starts out [undefined]. *)
Definition newInjector
    (getRequestInjected :
       CInj -> value -> APIGatewayProxyEvent -> Context -> Logger ->
       MetricsLogger -> outcome RInj)
    (buildContainerInjected : outcome (option CInj)) : Injector :=
  {| containerInjected := None;
     getRequestInjected := getRequestInjected;
     buildContainerInjected := buildContainerInjected |}.

(** [build()]: assigns to the field whatever [buildContainerInjected]
    resolves to and returns [this]. *)
Definition build (this : Injector) : outcome Injector :=
  c ← buildContainerInjected this;
  mret {| containerInjected := c;
          getRequestInjected := getRequestInjected this;
          buildContainerInjected := buildContainerInjected this |}.

Definition getContainerInjected (this : Injector) : outcome CInj :=
  match containerInjected this with
  | None =>
    Throw (Error "Container injected undefined. Must call build() before using.")
  | Some c => Return c
  end.

End InjectorMethods.

(** *** Handler *)

(** Computations of the handler: they may throw and they append to the
    log. *)
Definition M (A : Type) : Type := list LogRecord -> outcome A * list LogRecord.

#[global] Instance M_ret : MRet M := fun A a tr => (Return a, tr).
#[global] Instance M_bind : MBind M := fun A B f m tr =>
  match m tr with
  | (Return a, tr') => f a tr'
  | (Throw e, tr') => (Throw e, tr')
  end.

(** [await] of a call that does not log. *)
Definition await {A : Type} (o : outcome A) : M A := fun tr => (o, tr).

(** [try { m } catch (err) { h err }] *)
Definition try_catch {A : Type} (m : M A) (h : JsError -> M A) : M A :=
  fun tr =>
    match m tr with
    | (Return a, tr') => (Return a, tr')
    | (Throw e, tr') => h e tr'
    end.

Definition log_info (l : Logger) (msg : string) : M unit := fun tr =>
  (Return tt, (tr ++ [{| record_logger := l; record_level := INFO;
                         record_err := None; record_msg := msg |}])%list).

Definition log_error (l : Logger) (err : JsError) (msg : string) : M unit :=
  fun tr =>
  (Return tt, (tr ++ [{| record_logger := l; record_level := ERROR;
                         record_err := Some err; record_msg := msg |}])%list).

(** A [try] block either leaves the handler with a response ([return] inside
    the block or in its [catch]) or binds the variable declared before it. *)
Inductive step (A : Type) : Type :=
| Respond (r : APIGatewayProxyResult)
| Continue (a : A).
Arguments Respond {A} r.
Arguments Continue {A} a.

(** [{ state: 'valid', ... } | { state: 'invalid', errorResponse }] *)
Inductive validation : Type :=
| valid (v : value)
| invalid (errorResponse : APIGatewayProxyResult).

(** The abstract class: its constructor arguments and abstract methods. *)
Record APIGLambdaHandler (CInj RInj MetricsLogger : Type) : Type := {
  handlerName : string;
  injector : Injector CInj RInj MetricsLogger;
  handleRequest : HandleRequestParams CInj RInj -> outcome HandleRequestResult;
  requestBodySchema : outcome (option Joi.ObjectSchema);
  responseBodySchema : outcome (option Joi.ObjectSchema)
}.
Arguments handlerName {CInj RInj MetricsLogger} _.
Arguments injector {CInj RInj MetricsLogger} _.
Arguments handleRequest {CInj RInj MetricsLogger} _.
Arguments requestBodySchema {CInj RInj MetricsLogger} _.
Arguments responseBodySchema {CInj RInj MetricsLogger} _.

Section HandlerMethods.
Context {CInj RInj MetricsLogger : Type} `{BaseRInj RInj}.
Variable JSON : JSONRuntime.
Local Abbreviation APIGLambdaHandler := (APIGLambdaHandler CInj RInj MetricsLogger).

(** The initialiser of the module-level constant [INTERNAL_ERROR], run once
    when the module is loaded. *)
Definition INTERNAL_ERROR_init : outcome APIGatewayProxyResult :=
  body ← JSON_stringify JSON
           (VObj [("errorCode", VStr "INTERNAL_ERROR");
                  ("detail", VStr "Unexpected error.")]);
  Return {| statusCode := 500; body := body |}.

(** The constant itself, as the loaded module holds it. *)
Variable INTERNAL_ERROR : APIGatewayProxyResult.

Definition isError (result : HandleRequestResult) : bool :=
  negb (result_statusCode result =? 200)%Z &&
  negb (result_statusCode result =? 202)%Z.

Definition parseAndValidateRequest (this : APIGLambdaHandler)
    (event : APIGatewayProxyEvent) : outcome validation :=
  match JSON_parse JSON (default "" (event_body event)) with
  | Throw _ => Return (invalid {| statusCode := 422; body := "" |})
  | Return body =>
    bodySchema ← requestBodySchema this;
    match bodySchema with
    | None => Return (valid body)
    | Some bodySchema =>
      let res := Joi.validate bodySchema body
                   {| Joi.allowUnknown := true; Joi.stripUnknown := true |} in
      match Joi.error res with
      | Some message =>
        Return (invalid {| statusCode := 400; body := message |})
      | None => Return (valid (Joi.result_value res))
      end
    end
  end.

Definition parseAndValidateResponse (this : APIGLambdaHandler)
    (body : value) : outcome validation :=
  responseSchema ← responseBodySchema this;
  match responseSchema with
  | None => Return (valid body)
  | Some responseSchema =>
    let res := Joi.validate responseSchema body
                 {| Joi.allowUnknown := true; Joi.stripUnknown := true |} in
    match Joi.error res with
    | Some _ => Return (invalid {| statusCode := 500; body := "Internal error" |})
    | None => Return (valid (Joi.result_value res))
    end
  end.

(** The function [get handler()] returns, inside [metricScope]. *)
Definition handler (this : APIGLambdaHandler) (metric : MetricsLogger)
    (event : APIGatewayProxyEvent) (context : Context)
    : M APIGatewayProxyResult :=
  let log0 := {| logger_name := handlerName this;
                 requestId := awsRequestId context |} in
  log_info log0 "Request started.";;
  s1 ← try_catch
         (requestValidation ← await (parseAndValidateRequest this event);
          match requestValidation with
          | invalid errorResponse => mret (Respond errorResponse)
          | valid request => mret (Continue request)
          end)
         (fun err =>
            log_error log0 err "Unexpected error validating request";;
            mret (Respond INTERNAL_ERROR));
  match s1 with
  | Respond r => mret r
  | Continue request =>
    containerInjected ← await (getContainerInjected (injector this));
    s2 ← try_catch
           (requestInjected ←
              await (getRequestInjected (injector this) containerInjected
                       request event context log0 metric);
            mret (Continue requestInjected))
           (fun err =>
              log_error log0 err "Error building request injected.";;
              mret (Respond INTERNAL_ERROR));
    match s2 with
    | Respond r => mret r
    | Continue requestInjected =>
      let log1 := log requestInjected in
      log_info log1 "Invoking handle request";;
      s3 ← try_catch
             (handleRequestResult ←
                await (handleRequest this
                         {| params_context := context;
                            params_event := event;
                            params_request := request;
                            params_containerInjected := containerInjected;
                            params_requestInjected := requestInjected |});
              if isError handleRequestResult then
                body ←
                  await (JSON_stringify JSON
                    (VObj [("detail", result_detail handleRequestResult);
                           ("errorCode", result_errorCode handleRequestResult)]));
                mret (Respond
                  {| statusCode := result_statusCode handleRequestResult;
                     body := body |})
              else
                mret (Continue (result_body handleRequestResult,
                                result_statusCode handleRequestResult)))
             (fun err =>
                log_error log1 err "Unexpected error in handler";;
                mret (Respond INTERNAL_ERROR));
      match s3 with
      | Respond r => mret r
      | Continue (body, statusCode) =>
        s4 ← try_catch
               (responseValidation ← await (parseAndValidateResponse this body);
                match responseValidation with
                | invalid errorResponse => mret (Respond errorResponse)
                | valid response => mret (Continue response)
                end)
               (fun err =>
                  log_error log1 err "Unexpected error in handler";;
                  mret (Respond INTERNAL_ERROR));
        match s4 with
        | Respond r => mret r
        | Continue response =>
          body ← await (JSON_stringify JSON response);
          mret {| statusCode := statusCode; body := body |}
        end
      end
    end
  end.

(** The logger created at the top of [handler]. *)
Definition logger0 (this : APIGLambdaHandler) (context : Context) : Logger :=
  {| logger_name := handlerName this; requestId := awsRequestId context |}.

(** The argument [handler] passes to [handleRequest]. *)
Definition paramsOf (event : APIGatewayProxyEvent) (context : Context)
    (request : value) (c : CInj) (ri : RInj) : HandleRequestParams CInj RInj :=
  {| params_context := context; params_event := event;
     params_request := request; params_containerInjected := c;
     params_requestInjected := ri |}.

(** The detail and error code of an error result, as they are serialised. *)
Definition errorBody (res : HandleRequestResult) : value :=
  VObj [("detail", result_detail res); ("errorCode", result_errorCode res)].

(** An exception is raised inside one of the four [try] blocks of [handler]:
    while validating the request, while building the request dependencies,
    in the business logic or while serialising its error result, or while
    validating its successful result. [c] is the container the accessor
    handed out. *)
Definition guardedStageThrows (this : APIGLambdaHandler)
    (metric : MetricsLogger) (event : APIGatewayProxyEvent) (context : Context)
    (c : CInj) : Prop :=
  (∃ e, parseAndValidateRequest this event = Throw e) ∨
  ∃ request, parseAndValidateRequest this event = Return (valid request) ∧
    ((∃ e, getRequestInjected (injector this) c request event context
             (logger0 this context) metric = Throw e) ∨
     ∃ ri, getRequestInjected (injector this) c request event context
             (logger0 this context) metric = Return ri ∧
       ((∃ e, handleRequest this (paramsOf event context request c ri) = Throw e) ∨
        ∃ res, handleRequest this (paramsOf event context request c ri) = Return res ∧
               ((isError res = true ∧
                 ∃ e, JSON_stringify JSON (errorBody res) = Throw e) ∨
                (isError res = false ∧
                 ∃ e, parseAndValidateResponse this (result_body res) = Throw e)))).

(** The last statement of [handler], [JSON.stringify(response)], which is
    outside every [try] block, is reached and throws [e]. *)
Definition finalSerialisationThrows (this : APIGLambdaHandler)
    (metric : MetricsLogger) (event : APIGatewayProxyEvent) (context : Context)
    (c : CInj) (e : JsError) : Prop :=
  ∃ request ri res response,
    parseAndValidateRequest this event = Return (valid request) ∧
    getRequestInjected (injector this) c request event context
      (logger0 this context) metric = Return ri ∧
    handleRequest this (paramsOf event context request c ri) = Return res ∧
    isError res = false ∧
    parseAndValidateResponse this (result_body res) = Return (valid response) ∧
    JSON_stringify JSON response = Throw e.

End HandlerMethods.

End Handler.

(** ** Route graph (the loop over [routeAmounts] in [handleRequest]) *)

Module RouteGraph.

Record Token : Type := {
  address : string;
  chainId : Z;
  symbol : string;
  decimals : Z
}.

Record Pool : Type := {
  token0 : Token;
  token1 : Token;
  fee : Z;
  liquidity : Z;
  sqrtRatioX96 : Z;
  tickCurrent : Z
}.

Record Route : Type := {
  tokenPath : list Token;
  pools : list Pool
}.

Record CurrencyAmount : Type := { quotient : Z }.

Record RouteAmount : Type := {
  route : Route;
  amount : CurrencyAmount;
  quote : CurrencyAmount
}.

Record NodeInRoute : Type := {
  node_type : string;
  node_id : string;
  node_chainId : Z;
  node_symbol : string;
  node_decimals : string
}.

Record EdgeInRoute : Type := {
  edge_type : string;
  edge_id : string;
  inId : string;
  outId : string;
  edge_fee : string;
  edge_liquidity : string;
  edge_sqrtRatioX96 : string;
  edge_tickCurrent : string;
  amountIn : option string;
  amountOut : option string
}.

(** The three locals the loop mutates: [nodes], [edges] and [tokenSet]. *)
Record Graph : Type := {
  nodes : list NodeInRoute;
  edges : list EdgeInRoute;
  tokenSet : gset string
}.

Definition emptyGraph : Graph :=
  {| nodes := []; edges := []; tokenSet := ∅ |}.

Definition pushNode (n : NodeInRoute) (a : string) (g : Graph) : Graph :=
  {| nodes := (nodes g ++ [n])%list; edges := edges g;
     tokenSet := {[a]} ∪ tokenSet g |}.

Definition pushEdge (e : EdgeInRoute) (g : Graph) : Graph :=
  {| nodes := nodes g; edges := (edges g ++ [e])%list; tokenSet := tokenSet g |}.

(** What ties [tokenSet] to [nodes]: the set holds exactly the ids pushed so
    far, and no id was pushed twice. *)
Definition graphInv (g : Graph) : Prop :=
  NoDup (node_id <$> nodes g) ∧
  ∀ a, a ∈ tokenSet g ↔ a ∈ node_id <$> nodes g.

Section Assembly.

(** [poolProvider.getPoolAddress(token0, token1, fee).poolAddress] *)
Variable getPoolAddress : Token -> Token -> Z -> string.

(** The request's [type] field, compared with ['exactIn'] as the code does. *)
Variable type : string.

(** [if (!tokenSet.has(prevToken.address)) { ... }] before the hop loop. *)
Definition visitFirst (prevToken : Token) (g : Graph) : Graph :=
  if decide (address prevToken ∈ tokenSet g) then g
  else pushNode {| node_type := "token";
                   node_id := address prevToken;
                   node_chainId := chainId prevToken;
                   node_symbol := symbol prevToken;
                   node_decimals := toString (decimals prevToken) |}
                (address prevToken) g.

(** [if (!tokenSet.has(nextToken.address)) { ... }] inside the hop loop; the
    pushed node reads [prevToken.decimals]. *)
Definition visitNext (prevToken nextToken : Token) (g : Graph) : Graph :=
  if decide (address nextToken ∈ tokenSet g) then g
  else pushNode {| node_type := "token";
                   node_id := address nextToken;
                   node_chainId := chainId nextToken;
                   node_symbol := symbol nextToken;
                   node_decimals := toString (decimals prevToken) |}
                (address nextToken) g.

Definition edgeAmountIn (ra : RouteAmount) (i : nat) : option string :=
  if decide (i = 0)%nat then
    Some (if decide (type = "exactIn")
          then toString (quotient (amount ra))
          else toString (quotient (quote ra)))
  else None.

Definition edgeAmountOut (ra : RouteAmount) (i : nat) : option string :=
  if decide (Z.of_nat i = Z.of_nat (length (pools (route ra))) - 1)%Z then
    Some (if decide (type = "exactIn")
          then toString (quotient (quote ra))
          else toString (quotient (amount ra)))
  else None.

(** [for (let i = 0; i < pools.length; i++)], entered at index [i] with
    [rest] the pools from [i] on. [tokenPath[i + 1]] and [tokenPath[i]] are
    dereferenced, which throws when the path is too short. *)
Fixpoint hopLoop (ra : RouteAmount) (i : nat) (rest : list Pool)
    (prevToken : Token) (g : Graph) : outcome Graph :=
  match rest with
  | [] => Return g
  | nextPool :: rest' =>
    match tokenPath (route ra) !! (i + 1)%nat with
    | None => Throw (TypeError "Cannot read properties of undefined (reading 'address')")
    | Some nextToken =>
      let g1 := visitNext prevToken nextToken g in
      match tokenPath (route ra) !! i with
      | None => Throw (TypeError "Cannot read properties of undefined (reading 'address')")
      | Some tok_i =>
        let e := {| edge_type := "v3-pool";
                    edge_id := getPoolAddress (token0 nextPool) (token1 nextPool) (fee nextPool);
                    inId := address tok_i;
                    outId := address nextToken;
                    edge_fee := toString (fee nextPool);
                    edge_liquidity := toString (liquidity nextPool);
                    edge_sqrtRatioX96 := toString (sqrtRatioX96 nextPool);
                    edge_tickCurrent := toString (tickCurrent nextPool);
                    amountIn := edgeAmountIn ra i;
                    amountOut := edgeAmountOut ra i |} in
        hopLoop ra (S i) rest' nextToken (pushEdge e g1)
      end
    end
  end.

(** One iteration of [for (const routeAmount of routeAmounts)]. *)
Definition visitRoute (ra : RouteAmount) (g : Graph) : outcome Graph :=
  match tokenPath (route ra) !! 0%nat with
  | None => Throw (TypeError "Cannot read properties of undefined (reading 'address')")
  | Some prevToken =>
    hopLoop ra 0 (pools (route ra)) prevToken (visitFirst prevToken g)
  end.

Fixpoint routeLoop (routeAmounts : list RouteAmount) (g : Graph) : outcome Graph :=
  match routeAmounts with
  | [] => Return g
  | ra :: ras => g' ← visitRoute ra g; routeLoop ras g'
  end.

(** The node and edge lists placed in the response as [routeNodes] and
    [routeEdges]. *)
Definition assemble (routeAmounts : list RouteAmount) : outcome Graph :=
  routeLoop routeAmounts emptyGraph.

(** A route as the SDK builds it: one more token than pools. *)
Definition wellFormed (ra : RouteAmount) : Prop :=
  length (tokenPath (route ra)) = S (length (pools (route ra))).

(** Index in [edges] of the first hop of path number [k]. *)
Definition hopOffset (routeAmounts : list RouteAmount) (k : nat) : nat :=
  sum_list (map (fun ra => length (pools (route ra))) (take k routeAmounts)).

End Assembly.

End RouteGraph.

(** ** Sample data *)

Module Samples.
Import RouteGraph.

Definition tokA : Token :=
  {| address := "0xA"; chainId := 1; symbol := "AAA"; decimals := 18 |}.
Definition tokB : Token :=
  {| address := "0xB"; chainId := 1; symbol := "BBB"; decimals := 6 |}.
Definition tokC : Token :=
  {| address := "0xC"; chainId := 1; symbol := "CCC"; decimals := 8 |}.
Definition tokD : Token :=
  {| address := "0xD"; chainId := 1; symbol := "DDD"; decimals := 9 |}.
Definition tokE : Token :=
  {| address := "0xE"; chainId := 1; symbol := "EEE"; decimals := 2 |}.

Definition mkPool (t0 t1 : Token) : Pool :=
  {| token0 := t0; token1 := t1; fee := 3000; liquidity := 1000000;
     sqrtRatioX96 := 79228162514264337593543950336; tickCurrent := 0 |}.

(** A stand-in for the pool provider: the pool of two tokens and a fee. *)
Definition samplePoolAddress (t0 t1 : Token) (fee : Z) : string :=
  address t0 ++ "-" ++ address t1 ++ "-" ++ toString fee.

(** [A]-p1-[B] *)
Definition pathAB : RouteAmount :=
  {| route := {| tokenPath := [tokA; tokB]; pools := [mkPool tokA tokB] |};
     amount := {| quotient := 50 |}; quote := {| quotient := 47 |} |}.

(** [A]-p1-[B]-p2-[C] with amount-in 50 and amount-out 47 *)
Definition pathABC : RouteAmount :=
  {| route := {| tokenPath := [tokA; tokB; tokC];
                 pools := [mkPool tokA tokB; mkPool tokB tokC] |};
     amount := {| quotient := 50 |}; quote := {| quotient := 47 |} |}.

(** [D]-p3-[B]-p4-[E] *)
Definition pathDBE : RouteAmount :=
  {| route := {| tokenPath := [tokD; tokB; tokE];
                 pools := [mkPool tokD tokB; mkPool tokB tokE] |};
     amount := {| quotient := 30 |}; quote := {| quotient := 28 |} |}.

(** *** A host and handlers to run the pipeline on *)

Import Handler.

Definition textAX : string :=
  "{" ++ Joi.label "a" ++ ":1," ++ Joi.label "x" ++ ":2}".

(** [JSON.parse] on the texts used below: the empty object, the object
    [{a: 1, x: 2}], and text that is not JSON. *)
Definition sampleParse (text : string) : outcome value :=
  if decide (text = "{}") then Return (VObj [])
  else if decide (text = textAX) then
    Return (VObj [("a", VNum 1); ("x", VNum 2)])
  else Throw (SyntaxError "Unexpected token in JSON").

(** A [BigInt] occurs somewhere in the value. *)
Fixpoint hasBigInt (v : value) : bool :=
  match v with
  | VBigInt _ => true
  | VArr items =>
    (fix go (l : list value) : bool :=
       match l with
       | [] => false
       | x :: l' => hasBigInt x || go l'
       end) items
  | VObj props =>
    (fix go (l : list (string * value)) : bool :=
       match l with
       | [] => false
       | (_, x) :: l' => hasBigInt x || go l'
       end) props
  | _ => false
  end.

(** The text [JSON.stringify] gives for values whose strings need no
    escaping; properties holding [undefined] are left out. *)
Fixpoint sampleStringify (v : value) : string :=
  match v with
  | VUndefined => "undefined"
  | VNull => "null"
  | VBool b => if b then "true" else "false"
  | VNum n => toString n
  | VBigInt n => toString n
  | VStr s => Joi.dquote ++ s ++ Joi.dquote
  | VArr items =>
    "[" ++ (fix go (l : list value) : string :=
              match l with
              | [] => ""
              | [x] => sampleStringify x
              | x :: l' => sampleStringify x ++ "," ++ go l'
              end) items ++ "]"
  | VObj props =>
    "{" ++ (fix go (first : bool) (l : list (string * value)) : string :=
              match l with
              | [] => ""
              | (_, VUndefined) :: l' => go first l'
              | (k, x) :: l' =>
                (if first then "" else ",") ++ Joi.label k ++ ":" ++
                sampleStringify x ++ go false l'
              end) true props ++ "}"
  end.

(** [JSON.stringify]: a [TypeError] on a value holding a [BigInt]. *)
Definition sampleJSON : JSONRuntime :=
  {| JSON_parse := sampleParse;
     JSON_stringify := fun v =>
       if hasBigInt v
       then Throw (TypeError "Do not know how to serialize a BigInt")
       else Return (sampleStringify v) |}.

(** [INTERNAL_ERROR] as loaded on this host. *)
Definition sampleINTERNAL_ERROR : APIGatewayProxyResult :=
  {| statusCode := 500;
     body := sampleStringify
               (VObj [("errorCode", VStr "INTERNAL_ERROR");
                      ("detail", VStr "Unexpected error.")]) |}.

(** Request dependencies holding only the logger. *)
#[global] Instance Logger_BaseRInj : BaseRInj Logger := {| log := id |}.

Definition sampleContext : Context := {| awsRequestId := "req-1" |}.

Definition refinedLogger : Logger :=
  {| logger_name := "quote"; requestId := "req-1/quote-1" |}.

(** An injector whose container is the number 7. *)
Definition sampleInjector : Injector Z Logger unit :=
  newInjector (fun _ _ _ _ _ _ => Return refinedLogger) (Return (Some 7%Z)).

(** An injector whose [buildContainerInjected] resolves to [undefined]. *)
Definition voidInjector : Injector Z Logger unit :=
  newInjector (fun _ _ _ _ _ _ => Return refinedLogger) (Return None).

Definition builtInjector : Injector Z Logger unit :=
  {| containerInjected := Some 7%Z;
     getRequestInjected := getRequestInjected sampleInjector;
     buildContainerInjected := buildContainerInjected sampleInjector |}.

(** [Joi.any()]: any item, or none. *)
Definition anyKey : Joi.KeySchema := {| Joi.strip := false; Joi.rule := inr |}.

(** [Joi.any().required()] *)
Definition requiredKey : Joi.KeySchema :=
  {| Joi.strip := false;
     Joi.rule := fun item =>
       if is_undefined item then inl " is required" else inr item |}.

(** [Joi.object({ a: Joi.any() })] *)
Definition schemaA : Joi.ObjectSchema :=
  {| Joi.keys := Some [("a", anyKey)]; Joi.patterns := [];
     Joi.renames := []; Joi.unknown := None |}.

(** [Joi.object({ a: Joi.any().required() })] *)
Definition schemaReqA : Joi.ObjectSchema :=
  {| Joi.keys := Some [("a", requiredKey)]; Joi.patterns := [];
     Joi.renames := []; Joi.unknown := None |}.

(** [Joi.object({ a: Joi.any() }).unknown()] *)
Definition schemaAUnknown : Joi.ObjectSchema :=
  {| Joi.keys := Some [("a", anyKey)]; Joi.patterns := [];
     Joi.renames := []; Joi.unknown := Some true |}.

(** [Joi.object()] *)
Definition schemaObject : Joi.ObjectSchema :=
  {| Joi.keys := None; Joi.patterns := []; Joi.renames := [];
     Joi.unknown := None |}.

(** [Joi.object({ a: Joi.any() }).pattern(/^x/, Joi.any()).rename('b', 'a')] *)
Definition schemaRenamed : Joi.ObjectSchema :=
  {| Joi.keys := Some [("a", anyKey)];
     Joi.patterns :=
       [{| Joi.matches := String.prefix "x"; Joi.pattern_rule := inr;
           Joi.fallthrough := false |}];
     Joi.renames :=
       [{| Joi.rename_from := "b"; Joi.rename_to := "a"; Joi.alias := false;
           Joi.multiple := false; Joi.override := false;
           Joi.ignoreUndefined := false |}];
     Joi.unknown := None |}.

(** Business logic that echoes the parsed request with status 200. *)
Definition echoHandler (inj : Injector Z Logger unit)
    (reqSchema resSchema : option Joi.ObjectSchema)
    : APIGLambdaHandler Z Logger unit :=
  {| handlerName := "echo";
     injector := inj;
     handleRequest := fun p => Return (Response 200 (params_request p));
     requestBodySchema := Return reqSchema;
     responseBodySchema := Return resSchema |}.

(** Business logic that reports that no route was found. *)
Definition noRouteHandler : APIGLambdaHandler Z Logger unit :=
  {| handlerName := "quote";
     injector := builtInjector;
     handleRequest := fun _ =>
       Return (ErrorResponse 404 "NO_ROUTE" (Some "No route found"));
     requestBodySchema := Return None;
     responseBodySchema := Throw (Error "response schema unavailable") |}.

(** Business logic that answers 200 with a [BigInt] in the body. *)
Definition bigIntHandler : APIGLambdaHandler Z Logger unit :=
  {| handlerName := "quote";
     injector := builtInjector;
     handleRequest := fun _ =>
       Return (Response 200 (VObj [("blockNumber", VBigInt 13000000)]));
     requestBodySchema := Return None;
     responseBodySchema := Return None |}.

(** Business logic that throws. *)
Definition throwingHandler : APIGLambdaHandler Z Logger unit :=
  {| handlerName := "quote";
     injector := builtInjector;
     handleRequest := fun _ => Throw (Error "boom");
     requestBodySchema := Return None;
     responseBodySchema := Return None |}.

Definition eventOf (text : string) : APIGatewayProxyEvent :=
  {| event_body := Some text |}.

End Samples.

(** ** The pool-caching job ([handler] of [cache-pools.ts]) *)

Module CachePools.

Definition SUBGRAPH_URL : string :=
  "https://api.thegraph.com/subgraphs/name/uniswap/uniswap-v3".

Definition PAGE_SIZE : Z := 1000.

(** What the job does to the outside, in order: a record written through
    its logger, a query sent to the subgraph with its two variables (the
    query text is fixed), an object put into the bucket. *)
Inductive Event : Type :=
| Log (r : Handler.LogRecord)
| Request (url : string) (pageSize skip : Z)
| PutObject (Bucket Key : option string) (Body : string).

(** The collaborators: [request] of graphql-request, yielding the [pools]
    field of the response or rejecting; [s3.putObject(...).promise()]; the
    two environment variables, which may be unset; the host's JSON. *)
Record Services : Type := {
  request : string -> Z -> Z -> outcome (list value);
  putObject : option string -> option string -> string -> outcome unit;
  POOL_CACHE_BUCKET : option string;
  POOL_CACHE_KEY : option string;
  JSON : Handler.JSONRuntime
}.

(** An environment variable inside a template literal. *)
Definition envText (v : option string) : string := default "undefined" v.

Definition info (l : Handler.Logger) (msg : string) : Event :=
  Log {| Handler.record_logger := l; Handler.record_level := Handler.INFO;
         Handler.record_err := None; Handler.record_msg := msg |}.

Section Job.
Variable srv : Services.

(** [do { ... } while (poolsPage.length > 0)], entered with the current
    [skip] and [pools]. The loop has no bound of its own: [fuel] bounds the
    number of iterations and [None] means it was used up. *)
Fixpoint pageLoop (fuel : nat) (skip : Z) (pools : list value)
    (tr : list Event) : option (outcome (list value) * list Event) :=
  match fuel with
  | O => None
  | S fuel' =>
    let tr1 := (tr ++ [Request SUBGRAPH_URL PAGE_SIZE skip])%list in
    match request srv SUBGRAPH_URL PAGE_SIZE skip with
    | Throw e => Some (Throw e, tr1)
    | Return poolsPage =>
      let pools' := (pools ++ poolsPage)%list in
      let skip' := (skip + PAGE_SIZE)%Z in
      if decide (0 < length poolsPage)%nat
      then pageLoop fuel' skip' pools' tr1
      else Some (Return pools', tr1)
    end
  end.

(** The scheduled handler; [eventId] is [event.id]. *)
Definition handler (fuel : nat) (eventId : string) (tr : list Event)
    : option (outcome unit * list Event) :=
  let log := {| Handler.logger_name := "RoutingLambda";
                Handler.requestId := eventId |} in
  let tr0 :=
    (tr ++ [info log ("Getting pools from the subgraph with page size " ++
                      toString PAGE_SIZE ++ ".")])%list in
  match pageLoop fuel 0 [] tr0 with
  | None => None
  | Some (Throw e, tr1) => Some (Throw e, tr1)
  | Some (Return pools, tr1) =>
    if decide (length pools = 0)%nat then Some (Return tt, tr1)
    else
      let tr2 :=
        (tr1 ++ [info log ("Got " ++ toString (Z.of_nat (length pools)) ++
                           " pools from the subgraph. Saving to " ++
                           envText (POOL_CACHE_BUCKET srv) ++ "/" ++
                           envText (POOL_CACHE_KEY srv))])%list in
      match Handler.JSON_stringify (JSON srv) (VArr pools) with
      | Throw e => Some (Throw e, tr2)
      | Return Body =>
        Some (putObject srv (POOL_CACHE_BUCKET srv) (POOL_CACHE_KEY srv) Body,
              (tr2 ++ [PutObject (POOL_CACHE_BUCKET srv) (POOL_CACHE_KEY srv)
                         Body])%list)
      end
  end.

End Job.

(** The queries among the events, as their [skip] variables. *)
Definition skipsOf (tr : list Event) : list Z :=
  omap (fun ev => match ev with Request _ _ skip => Some skip | _ => None end) tr.

(** The objects put among the events, as their bodies. *)
Definition putsOf (tr : list Event) : list string :=
  omap (fun ev => match ev with PutObject _ _ b => Some b | _ => None end) tr.

(** A subgraph that answers [first]/[skip] from one fixed ordered list. *)
Definition servedFrom (all : list value) (url : string) (pageSize skip : Z)
    : outcome (list value) :=
  Return (take (Z.to_nat pageSize) (drop (Z.to_nat skip) all)).

End CachePools.

(** ** The quote endpoint ([QuoteHandler] of [cache-pools.ts]) *)

Module QuoteHandler.
Import RouteGraph.

(** Strings are read as sequences of UTF-16 code units below 256, for which
    [length] is the number of characters and [toLowerCase] maps A-Z and the
    capital letters of Latin-1 to their small forms. *)
Definition toLowerCaseUnit (c : Ascii.ascii) : Ascii.ascii :=
  let n := Ascii.nat_of_ascii c in
  if (bool_decide (65 ≤ n ≤ 90) ||
      (bool_decide (192 ≤ n ≤ 222) && negb (bool_decide (n = 215))))%nat
  then Ascii.ascii_of_nat (n + 32) else c.

Fixpoint toLowerCase (s : string) : string :=
  match s with
  | EmptyString => EmptyString
  | String c s' => String (toLowerCaseUnit c) (toLowerCase s')
  end.

(** [Currency] of the SDK as far as this handler produces it: the native
    currency of a chain or a token. *)
Inductive Currency : Type :=
| Ether (chainId : Z)
| Tok (t : Token).

Definition currencySymbol (c : Currency) : string :=
  match c with
  | Ether _ => "ETH"
  | Tok t => symbol t
  end.

Record ITokenListProvider : Type := {
  getTokenByAddress : string -> outcome (option Token);
  getTokenBySymbol : string -> outcome (option Token)
}.

(** What [tokenProvider.getTokens] resolves to. *)
Record TokenAccessor : Type := {
  accessor_getTokenByAddress : string -> outcome (option Token)
}.

Record ITokenProvider : Type := {
  getTokens : list string -> outcome TokenAccessor
}.

(** [requestQueryParams]; the last three may be missing. [amountRaw] is the
    [amount] field under the name the handler gives it and [tradeType] the
    [type] field. *)
Record QuoteQueryParams : Type := {
  tokenInAddress : string;
  tokenInChainId : Z;
  tokenOutAddress : string;
  tokenOutChainId : Z;
  amountRaw : string;
  tradeType : string;
  recipient : option string;
  slippageTolerance : option string;
  deadline : option string
}.

Record AlphaRouterConfig : Type := {
  topN : Z;
  topNTokenInOut : Z;
  topNSecondHop : Z;
  topNWithEachBaseToken : Z;
  topNWithBaseToken : Z;
  topNWithBaseTokenInSet : bool;
  maxSwapsPerPath : Z;
  maxSplits : Z;
  distributionPercent : Z;
  multicallChunkSize : Z
}.

Definition ROUTING_CONFIG : AlphaRouterConfig :=
  {| topN := 3; topNTokenInOut := 3; topNSecondHop := 0;
     topNWithEachBaseToken := 2; topNWithBaseToken := 6;
     topNWithBaseTokenInSet := true; maxSwapsPerPath := 3; maxSplits := 3;
     distributionPercent := 5; multicallChunkSize := 175 |}.

(** [ErrorResponse] and [Response<QuoteResponse>] of the handler module. *)
Record ErrorResponse : Type := {
  error_statusCode : Z;
  errorCode : string;
  detail : option string
}.

(** JavaScript truthiness of an optional string. *)
Definition truthy (s : option string) : bool :=
  match s with
  | Some s => negb (bool_decide (s = ""))
  | None => false
  end.

Definition isAddress (s : string) : bool :=
  bool_decide (String.length s = 42%nat) && String.prefix "0x" s.

Definition ETH_ADDRESS : string := "0xeeeeeeeeeeeeeeeeeeeeeeeeeeeeeeeeeeeeeeee".

Section Endpoint.

(** The SDK's [CurrencyAmount], observed through [quotient] and [toExact];
    [SwapConfig] and [MethodParameters] are passed through untouched. *)
Variables Amount SwapConfig MethodParameters : Type.
Variable quotientOf : Amount -> Z.
Variable toExact : Amount -> string.

(** [CurrencyAmount.fromRawAmount(currency, JSBI.BigInt(raw))] *)
Variable fromRawAmount : Currency -> string -> outcome Amount.

(** The body of [if (slippageTolerance && deadline && recipient)]: the
    [SwapConfig] built from the three strings and the clock. *)
Variable swapConfigOf : string -> string -> string -> outcome SwapConfig.

(** [a.equals(b)] and [c.wrapped] of the SDK. *)
Variable equals : Currency -> Currency -> bool.
Variable wrapped : Currency -> outcome Token.

Variable routeAmountsToString : list RouteAmount -> string.

Record SwapRoute : Type := {
  swap_quote : Amount;
  quoteGasAdjusted : Amount;
  routeAmounts : list RouteAmount;
  estimatedGasUsed : Z;
  estimatedGasUsedQuoteToken : Amount;
  estimatedGasUsedUSD : Amount;
  gasPriceWei : Z;
  methodParameters : option MethodParameters;
  blockNumber : Z
}.

Record IRouter : Type := {
  routeExactIn :
    Currency -> Currency -> Amount -> option SwapConfig ->
    AlphaRouterConfig -> outcome (option SwapRoute);
  routeExactOut :
    Currency -> Currency -> Amount -> option SwapConfig ->
    AlphaRouterConfig -> outcome (option SwapRoute)
}.

(** The parts of [requestInjected] and [containerInjected] that are read;
    the metrics sink, which is handed wall-clock durations, is left out. *)
Record RequestInjected : Type := {
  router : IRouter;
  log : Handler.Logger;
  quoteId : string;
  tokenProvider : ITokenProvider;
  poolProvider : Token -> Token -> Z -> string
}.

Record ContainerInjected : Type := {
  tokenListProvider : ITokenListProvider
}.

Record QuoteResponse : Type := {
  res_methodParameters : option MethodParameters;
  res_blockNumber : string;
  res_quote : string;
  res_quoteDecimals : string;
  res_quoteGasAdjusted : string;
  res_quoteGasAdjustedDecimals : string;
  res_gasUseEstimateQuote : string;
  res_gasUseEstimateQuoteDecimals : string;
  res_gasUseEstimate : string;
  res_gasUseEstimateUSD : string;
  res_gasPriceWei : string;
  routeNodes : list NodeInRoute;
  routeEdges : list EdgeInRoute;
  routeString : string;
  res_quoteId : string
}.

Record Response : Type := {
  statusCode : Z;
  body : QuoteResponse
}.

(** [tryTokenList] inside [tokenStringToCurrency] *)
Definition tryTokenList (tokenListProvider : ITokenListProvider)
    (tokenRaw : string) (chainId : Z) : outcome (option Currency) :=
  if bool_decide (tokenRaw = "ETH") ||
     bool_decide (toLowerCase tokenRaw = ETH_ADDRESS)
  then Return (Some (Ether chainId))
  else if isAddress tokenRaw then
    token ← getTokenByAddress tokenListProvider tokenRaw;
    Return (fmap (M:=option) Tok token)
  else
    token ← getTokenBySymbol tokenListProvider tokenRaw;
    Return (fmap (M:=option) Tok token).

(** The array built in [tokensToFetch]. *)
Definition tokensToFetch (currencyIn currencyOut : option Currency)
    (tokenInRaw tokenOutRaw : string) : list string :=
  ((if negb (bool_decide (is_Some currencyIn)) && isAddress tokenInRaw
    then [tokenInRaw] else []) ++
   (if negb (bool_decide (is_Some currencyOut)) && isAddress tokenOutRaw
    then [tokenOutRaw] else []))%list.

(** An array inside a template literal: its elements joined by commas. *)
Definition arrayText (l : list string) : string := String.concat "," l.

Definition tokenStringToCurrency (tokenListProvider : ITokenListProvider)
    (tokenProvider : ITokenProvider) (tokenInRaw tokenOutRaw : string)
    (tokenInChainId tokenOutChainId : Z) (log : Handler.Logger)
    : Handler.M (option Currency * option Currency) :=
  currencyIn ←
    Handler.await (tryTokenList tokenListProvider tokenInRaw tokenInChainId);
  currencyOut ←
    Handler.await (tryTokenList tokenListProvider tokenOutRaw tokenOutChainId);
  match currencyIn, currencyOut with
  | Some cIn, Some cOut =>
    Handler.await (wrapped cIn);;
    Handler.await (wrapped cOut);;
    Handler.log_info log "Got both input tokens from token list";;
    mret (currencyIn, currencyOut)
  | _, _ =>
    let toFetch := tokensToFetch currencyIn currencyOut tokenInRaw tokenOutRaw in
    Handler.log_info log ("Getting tokens " ++ arrayText toFetch ++ " from chain");;
    tokenAccessor ← Handler.await (getTokens tokenProvider toFetch);
    currencyIn ←
      match currencyIn with
      | Some _ => mret currencyIn
      | None =>
        t ← Handler.await (accessor_getTokenByAddress tokenAccessor tokenInRaw);
        mret (fmap (M:=option) Tok t)
      end;
    currencyOut ←
      match currencyOut with
      | Some _ => mret currencyOut
      | None =>
        t ← Handler.await (accessor_getTokenByAddress tokenAccessor tokenOutRaw);
        mret (fmap (M:=option) Tok t)
      end;
    mret (currencyIn, currencyOut)
  end.

(** [let swapParams = undefined; if (slippageTolerance && deadline &&
    recipient) { swapParams = ... }] *)
Definition swapParamsOf (requestQueryParams : QuoteQueryParams)
    : outcome (option SwapConfig) :=
  if truthy (slippageTolerance requestQueryParams) &&
     truthy (deadline requestQueryParams) &&
     truthy (recipient requestQueryParams)
  then
    c ← swapConfigOf (default "" (slippageTolerance requestQueryParams))
          (default "" (deadline requestQueryParams))
          (default "" (recipient requestQueryParams));
    Return (Some c)
  else Return None.

(** The response body built from the route found. *)
Definition quoteResponseOf (swapRoute : SwapRoute) (g : Graph)
    (quoteId : string) : QuoteResponse :=
  {| res_methodParameters := methodParameters swapRoute;
     res_blockNumber := toString (blockNumber swapRoute);
     res_quote := toString (quotientOf (swap_quote swapRoute));
     res_quoteDecimals := toExact (swap_quote swapRoute);
     res_quoteGasAdjusted := toString (quotientOf (quoteGasAdjusted swapRoute));
     res_quoteGasAdjustedDecimals := toExact (quoteGasAdjusted swapRoute);
     res_gasUseEstimateQuote :=
       toString (quotientOf (estimatedGasUsedQuoteToken swapRoute));
     res_gasUseEstimateQuoteDecimals :=
       toExact (estimatedGasUsedQuoteToken swapRoute);
     res_gasUseEstimate := toString (estimatedGasUsed swapRoute);
     res_gasUseEstimateUSD := toExact (estimatedGasUsedUSD swapRoute);
     res_gasPriceWei := toString (gasPriceWei swapRoute);
     routeNodes := nodes g;
     routeEdges := edges g;
     routeString := routeAmountsToString (routeAmounts swapRoute);
     res_quoteId := quoteId |}.

Definition handleRequest (requestQueryParams : QuoteQueryParams)
    (requestInjected : RequestInjected) (containerInjected : ContainerInjected)
    : Handler.M (Response + ErrorResponse) :=
  let log := log requestInjected in
  '(currencyIn, currencyOut) ←
    tokenStringToCurrency (tokenListProvider containerInjected)
      (tokenProvider requestInjected)
      (tokenInAddress requestQueryParams) (tokenOutAddress requestQueryParams)
      (tokenInChainId requestQueryParams) (tokenOutChainId requestQueryParams)
      log;
  match currencyIn with
  | None =>
    mret (inr {| error_statusCode := 400; errorCode := "TOKEN_IN_INVALID";
                 detail := Some ("Could not find token with address " ++
                                 Joi.dquote ++ tokenInAddress requestQueryParams ++
                                 Joi.dquote) |})
  | Some currencyIn =>
    match currencyOut with
    | None =>
      mret (inr {| error_statusCode := 400; errorCode := "TOKEN_OUT_INVALID";
                   detail := Some ("Could not find token with address " ++
                                   Joi.dquote ++
                                   tokenOutAddress requestQueryParams ++
                                   Joi.dquote) |})
    | Some currencyOut =>
      if equals currencyIn currencyOut then
        mret (inr {| error_statusCode := 400; errorCode := "TOKEN_IN_OUT_SAME";
                     detail := Some "tokenIn and tokenOut must be different" |})
      else
        swapParams ← Handler.await (swapParamsOf requestQueryParams);
        swapRoute ←
          (if bool_decide (tradeType requestQueryParams = "exactIn") then
             amountIn ←
               Handler.await
                 (fromRawAmount currencyIn (amountRaw requestQueryParams));
             Handler.log_info log
               ("Exact In Swap: Give " ++ toExact amountIn ++ " " ++
                currencySymbol currencyIn ++ ", Want: " ++
                currencySymbol currencyOut);;
             Handler.await
               (routeExactIn (router requestInjected) currencyIn currencyOut
                  amountIn swapParams ROUTING_CONFIG)
           else if bool_decide (tradeType requestQueryParams = "exactOut") then
             amountOut ←
               Handler.await
                 (fromRawAmount currencyOut (amountRaw requestQueryParams));
             Handler.log_info log
               ("Exact Out Swap: Want " ++ toExact amountOut ++ " " ++
                currencySymbol currencyOut ++ " Give: " ++
                currencySymbol currencyIn);;
             Handler.await
               (routeExactOut (router requestInjected) currencyIn currencyOut
                  amountOut swapParams ROUTING_CONFIG)
           else Handler.await (Throw (Error "")));
        match swapRoute with
        | None =>
          mret (inr {| error_statusCode := 404; errorCode := "NO_ROUTE";
                       detail := Some "No route found" |})
        | Some swapRoute =>
          g ← Handler.await
                (assemble (poolProvider requestInjected)
                   (tradeType requestQueryParams) (routeAmounts swapRoute));
          mret (inl {| statusCode := 200;
                       body := quoteResponseOf swapRoute g
                                 (quoteId requestInjected) |})
        end
    end
  end.

End Endpoint.

Arguments swap_quote {Amount MethodParameters} _.
Arguments quoteGasAdjusted {Amount MethodParameters} _.
Arguments routeAmounts {Amount MethodParameters} _.
Arguments estimatedGasUsed {Amount MethodParameters} _.
Arguments estimatedGasUsedQuoteToken {Amount MethodParameters} _.
Arguments estimatedGasUsedUSD {Amount MethodParameters} _.
Arguments gasPriceWei {Amount MethodParameters} _.
Arguments methodParameters {Amount MethodParameters} _.
Arguments blockNumber {Amount MethodParameters} _.
Arguments routeExactIn {Amount SwapConfig MethodParameters} _ _ _ _ _ _.
Arguments routeExactOut {Amount SwapConfig MethodParameters} _ _ _ _ _ _.
Arguments router {Amount SwapConfig MethodParameters} _.
Arguments log {Amount SwapConfig MethodParameters} _.
Arguments quoteId {Amount SwapConfig MethodParameters} _.
Arguments tokenProvider {Amount SwapConfig MethodParameters} _.
Arguments poolProvider {Amount SwapConfig MethodParameters} _ _ _ _.
Arguments statusCode {MethodParameters} _.
Arguments body {MethodParameters} _.
Arguments routeNodes {MethodParameters} _.
Arguments routeEdges {MethodParameters} _.
Arguments res_quote {MethodParameters} _.
Arguments res_quoteId {MethodParameters} _.
Arguments swapParamsOf {SwapConfig} _ _.
Arguments quoteResponseOf {Amount MethodParameters} _ _ _ _ _ _.
Arguments handleRequest {Amount SwapConfig MethodParameters} _ _ _ _ _ _ _ _ _ _.

End QuoteHandler.

(** ** Vocabulary for stating properties of the route graph *)

Module Vocabulary.
Import RouteGraph.

(** The edge pushed for hop [i] of a path, [pool] being [pools[i]] and
    [tokIn], [tokOut] being [tokenPath[i]] and [tokenPath[i + 1]]. *)
Definition edgeOf (getPoolAddress : Token -> Token -> Z -> string)
    (type : string) (ra : RouteAmount) (i : nat) (pool : Pool)
    (tokIn tokOut : Token) : EdgeInRoute :=
  {| edge_type := "v3-pool";
     edge_id := getPoolAddress (token0 pool) (token1 pool) (fee pool);
     inId := address tokIn;
     outId := address tokOut;
     edge_fee := toString (fee pool);
     edge_liquidity := toString (liquidity pool);
     edge_sqrtRatioX96 := toString (sqrtRatioX96 pool);
     edge_tickCurrent := toString (tickCurrent pool);
     amountIn := edgeAmountIn type ra i;
     amountOut := edgeAmountOut type ra i |}.

(** The addresses the loops look at for one path, in order: the head token
    and the far end of every hop. *)
Definition visited (ra : RouteAmount) : list string :=
  address <$> take (S (length (pools (route ra)))) (tokenPath (route ra)).

(** The first occurrences in [l] of the addresses not in [seen]. *)
Fixpoint firstSeen (seen : gset string) (l : list string) : list string :=
  match l with
  | [] => []
  | a :: l' =>
    if decide (a ∈ seen) then firstSeen seen l'
    else a :: firstSeen ({[a]} ∪ seen) l'
  end.

(** A path with its amount and quote exchanged. *)
Definition swapAmounts (ra : RouteAmount) : RouteAmount :=
  {| route := route ra; amount := quote ra; quote := amount ra |}.

(** A path has a token at both ends of each of its hops. *)
Definition enoughTokens (ra : RouteAmount) : Prop :=
  (length (pools (route ra)) < length (tokenPath (route ra)))%nat.

(** Every edge joins two tokens already recorded in [tokenSet]. *)
Definition closed (g : Graph) : Prop :=
  ∀ e, e ∈ edges g → inId e ∈ tokenSet g ∧ outId e ∈ tokenSet g.

(** The nodes pushed by a stretch of the loops that visits the addresses
    [l]: the first occurrences of those not yet in [tokenSet]. *)
Definition extends (g g' : Graph) (l : list string) : Prop :=
  node_id <$> nodes g' =
    ((node_id <$> nodes g) ++ firstSeen (tokenSet g) l)%list ∧
  tokenSet g' = list_to_set l ∪ tokenSet g.

(** The router, asked in the direction the request names and with the raw
    amount read in the currency that direction fixes, answered [r]. *)
Definition routed {Amount SwapConfig MethodParameters : Type}
    (fromRawAmount : QuoteHandler.Currency -> string -> outcome Amount)
    (q : QuoteHandler.QuoteQueryParams)
    (rt : QuoteHandler.IRouter Amount SwapConfig MethodParameters)
    (cIn cOut : QuoteHandler.Currency) (sp : option SwapConfig)
    (r : option (QuoteHandler.SwapRoute Amount MethodParameters)) : Prop :=
  (QuoteHandler.tradeType q = "exactIn" ∧
   ∃ a, fromRawAmount cIn (QuoteHandler.amountRaw q) = Return a ∧
        QuoteHandler.routeExactIn rt cIn cOut a sp
          QuoteHandler.ROUTING_CONFIG = Return r) ∨
  (QuoteHandler.tradeType q = "exactOut" ∧
   ∃ a, fromRawAmount cOut (QuoteHandler.amountRaw q) = Return a ∧
        QuoteHandler.routeExactOut rt cIn cOut a sp
          QuoteHandler.ROUTING_CONFIG = Return r).

(** The four error answers of the quote endpoint. *)
Definition quoteErrors : list (string * Z) :=
  [("TOKEN_IN_INVALID", 400%Z); ("TOKEN_OUT_INVALID", 400%Z);
   ("TOKEN_IN_OUT_SAME", 400%Z); ("NO_ROUTE", 404%Z)].

(** The errors carried by the records of a log. *)
Definition errorsLogged (tr : list Handler.LogRecord) : list JsError :=
  omap Handler.record_err tr.

End Vocabulary.

(** ** Sample data for the job and the quote endpoint *)

Module JobSamples.
Import CachePools.

Definition pool1 : value :=
  VObj [("id", VStr "0xp1"); ("feeTier", VStr "3000")].
Definition pool2 : value :=
  VObj [("id", VStr "0xp2"); ("feeTier", VStr "500")].

Definition servicesWith (request : string -> Z -> Z -> outcome (list value))
    : Services :=
  {| request := request;
     putObject := fun _ _ _ => Return tt;
     POOL_CACHE_BUCKET := Some "bucket";
     POOL_CACHE_KEY := Some "poolCache.json";
     JSON := Samples.sampleJSON |}.

(** A subgraph holding two pools. *)
Definition twoPools : Services := servicesWith (servedFrom [pool1; pool2]).

(** A subgraph that ignores [skip]. *)
Definition stuck : Services := servicesWith (fun _ _ _ => Return [pool1]).

(** A subgraph that fails on the second page. *)
Definition flaky : Services :=
  servicesWith (fun _ _ skip =>
    if decide (skip = 0%Z) then Return [pool1] else Throw (Error "timeout")).

End JobSamples.

Module HandlerSamples.
Import Handler.

(** A handler whose request dependencies cannot be built. *)
Definition noDepsHandler : APIGLambdaHandler Z Logger unit :=
  {| handlerName := "echo";
     injector :=
       {| containerInjected := Some 7%Z;
          getRequestInjected := fun _ _ _ _ _ _ => Throw (Error "no rpc");
          buildContainerInjected := Return (Some 7%Z) |};
     handleRequest := fun _ => Throw (Error "boom");
     requestBodySchema := Return None;
     responseBodySchema := Return None |}.

End HandlerSamples.

Module QuoteSamples.
Import RouteGraph QuoteHandler.

(** A path that names a pool but only one token. *)
Definition shortPath : RouteAmount :=
  {| route := {| tokenPath := [Samples.tokA];
                 pools := [Samples.mkPool Samples.tokA Samples.tokB] |};
     amount := {| quotient := 50 |}; quote := {| quotient := 47 |} |}.

(** Amounts are their quotients; swap parameters and call data are empty. *)
Definition fromRaw (c : Currency) (raw : string) : outcome Z :=
  if decide (raw = "50") then Return 50%Z
  else Throw (SyntaxError "Cannot convert to a BigInt").

Definition swapConfig (st dl rc : string) : outcome unit := Return tt.

Definition sameCurrency (a b : Currency) : bool :=
  match a, b with
  | Ether c, Ether d => bool_decide (c = d)
  | Tok t, Tok u =>
    bool_decide (chainId t = chainId u) && bool_decide (address t = address u)
  | _, _ => false
  end.

Definition weth : Token :=
  {| address := "0xW"; chainId := 1; symbol := "WETH"; decimals := 18 |}.

Definition wrappedOf (c : Currency) : outcome Token :=
  match c with
  | Tok t => Return t
  | Ether _ => Return weth
  end.

Definition noRouteString (l : list RouteAmount) : string := "".

(** A token list knowing AAA and BBB by symbol. *)
Definition tokenList : ITokenListProvider :=
  {| getTokenByAddress := fun _ => Return None;
     getTokenBySymbol := fun s =>
       Return (if decide (s = "AAA") then Some Samples.tokA
               else if decide (s = "BBB") then Some Samples.tokB
               else None) |}.

Definition addressC : string := "0xcccccccccccccccccccccccccccccccccccccccc".

Definition chainC : Token :=
  {| address := addressC; chainId := 1; symbol := "CCC"; decimals := 8 |}.

(** A chain on which only the token at [addressC] is found. *)
Definition chainTokens : ITokenProvider :=
  {| getTokens := fun _ =>
       Return {| accessor_getTokenByAddress := fun a =>
                   Return (if decide (a = addressC) then Some chainC
                           else None) |} |}.

(** A token provider that is out of reach. *)
Definition unreachable : ITokenProvider :=
  {| getTokens := fun _ => Throw (Error "network") |}.

Definition foundRoute : SwapRoute Z unit :=
  {| swap_quote := 47%Z; quoteGasAdjusted := 46%Z;
     routeAmounts := [Samples.pathABC];
     estimatedGasUsed := 100000; estimatedGasUsedQuoteToken := 1%Z;
     estimatedGasUsedUSD := 2%Z; gasPriceWei := 30;
     methodParameters := None; blockNumber := 13000000 |}.

(** A router that finds [foundRoute] for exact input and nothing for exact
    output. *)
Definition sampleRouter : IRouter Z unit unit :=
  {| routeExactIn := fun _ _ _ _ _ => Return (Some foundRoute);
     routeExactOut := fun _ _ _ _ _ => Return None |}.

Definition requestDeps (tp : ITokenProvider) : RequestInjected Z unit unit :=
  {| router := sampleRouter;
     log := Samples.refinedLogger;
     quoteId := "quote-1";
     tokenProvider := tp;
     poolProvider := Samples.samplePoolAddress |}.

Definition containerDeps : ContainerInjected :=
  {| tokenListProvider := tokenList |}.

Definition query (tokenIn tokenOut type : string) : QuoteQueryParams :=
  {| tokenInAddress := tokenIn; tokenInChainId := 1;
     tokenOutAddress := tokenOut; tokenOutChainId := 1;
     amountRaw := "50"; tradeType := type;
     recipient := None; slippageTolerance := None; deadline := None |}.

(** The endpoint with the sample collaborators. *)
Definition sampleHandleRequest :=
  handleRequest (MethodParameters := unit) (fun a : Z => a) toString fromRaw
    swapConfig sameCurrency wrappedOf noRouteString.

End QuoteSamples.

(** * Properties of the route graph *)

Module RouteGraphFacts.
Import RouteGraph.

Section Facts.
Variable getPoolAddress : Token -> Token -> Z -> string.
Variable type : string.

Local Abbreviation hopLoop := (hopLoop getPoolAddress type).
Local Abbreviation visitRoute := (visitRoute getPoolAddress type).
Local Abbreviation routeLoop := (routeLoop getPoolAddress type).
Local Abbreviation assemble := (assemble getPoolAddress type).

Lemma emptyGraph_inv : graphInv emptyGraph.
Proof.
  split; simpl.
  - constructor.
  - intros a. set_solver.
Qed.

Lemma pushNode_inv n g :
  graphInv g → node_id n ∉ tokenSet g → graphInv (pushNode n (node_id n) g).
Proof.
  intros [Hnd Hset] Hfresh. split; simpl.
  - rewrite fmap_app. apply NoDup_app. split; [done|]. split.
    + intros a Ha Hin. apply list_elem_of_singleton in Hin as ->.
      apply Hfresh, Hset, Ha.
    + apply NoDup_singleton.
  - intros a. rewrite fmap_app, elem_of_app, elem_of_union, elem_of_singleton.
    simpl. rewrite list_elem_of_singleton, Hset. tauto.
Qed.

Lemma pushEdge_inv e g : graphInv g → graphInv (pushEdge e g).
Proof. intros [Hnd Hset]. split; simpl; done. Qed.

Lemma visitFirst_inv t g : graphInv g → graphInv (visitFirst t g).
Proof.
  intros Hg. unfold visitFirst. case_decide as Hin; [done|].
  by apply (pushNode_inv {| node_id := address t |}).
Qed.

Lemma visitNext_inv p t g : graphInv g → graphInv (visitNext p t g).
Proof.
  intros Hg. unfold visitNext. case_decide as Hin; [done|].
  by apply (pushNode_inv {| node_id := address t |}).
Qed.

Lemma hopLoop_inv ra rest : ∀ i prev g g',
  hopLoop ra i rest prev g = Return g' → graphInv g → graphInv g'.
Proof.
  induction rest as [|p rest IH]; intros i prev g g' Hrun Hg; simpl in Hrun.
  - by inversion Hrun; subst.
  - destruct (tokenPath (route ra) !! (i + 1)%nat) as [nextToken|]; [|done].
    destruct (tokenPath (route ra) !! i) as [tok_i|]; [|done].
    eapply IH; [exact Hrun|]. by apply pushEdge_inv, visitNext_inv.
Qed.

Lemma visitRoute_inv ra g g' :
  visitRoute ra g = Return g' → graphInv g → graphInv g'.
Proof.
  unfold RouteGraph.visitRoute. intros Hrun Hg.
  destruct (tokenPath (route ra) !! 0%nat) as [prev|]; [|done].
  eapply hopLoop_inv; [exact Hrun|]. by apply visitFirst_inv.
Qed.

Lemma routeLoop_inv ras : ∀ g g',
  routeLoop ras g = Return g' → graphInv g → graphInv g'.
Proof.
  induction ras as [|ra ras IH]; intros g g' Hrun Hg; simpl in Hrun.
  - by inversion Hrun; subst.
  - destruct (visitRoute ra g) as [g1|e] eqn:Hv; [|done].
    eapply IH; [exact Hrun|]. by eapply visitRoute_inv.
Qed.

(** On a route with one more token than pools no lookup is out of range. *)
Lemma hopLoop_returns ra rest : ∀ i prev g,
  (i + length rest < length (tokenPath (route ra)))%nat →
  ∃ g', hopLoop ra i rest prev g = Return g'.
Proof.
  induction rest as [|p rest IH]; intros i prev g Hlen; simpl in *.
  - by eexists.
  - destruct (lookup_lt_is_Some_2 (tokenPath (route ra)) (i + 1)%nat) as [t1 ->];
      [lia|].
    destruct (lookup_lt_is_Some_2 (tokenPath (route ra)) i) as [t0 ->]; [lia|].
    apply IH. lia.
Qed.

Lemma visitRoute_returns ra g :
  wellFormed ra → ∃ g', visitRoute ra g = Return g'.
Proof.
  unfold wellFormed, RouteGraph.visitRoute. intros Hwf.
  destruct (lookup_lt_is_Some_2 (tokenPath (route ra)) 0%nat) as [t0 ->]; [lia|].
  apply hopLoop_returns. lia.
Qed.

Lemma routeLoop_returns ras : ∀ g,
  Forall wellFormed ras → ∃ g', routeLoop ras g = Return g'.
Proof.
  induction ras as [|ra ras IH]; intros g Hwf; simpl.
  - by eexists.
  - apply Forall_cons in Hwf as [Hra Hras].
    destruct (visitRoute_returns ra g Hra) as [g1 ->]. simpl. by apply IH.
Qed.

(** C3. Every token address is the id of at most one node of the returned
    node list, whatever the paths are; and on well-formed paths (one more
    token than pools) the assembly does return a graph. *)
Theorem nodes_unique (routeAmounts : list RouteAmount) :
  (Forall wellFormed routeAmounts → ∃ g, assemble routeAmounts = Return g) ∧
  (∀ g, assemble routeAmounts = Return g → NoDup (node_id <$> nodes g)).
Proof.
  split.
  - intros Hwf. by apply routeLoop_returns.
  - intros g Hrun.
    by destruct (routeLoop_inv routeAmounts emptyGraph g Hrun emptyGraph_inv).
Qed.

(** What the second push writes: the id, chain and symbol of [nextToken],
    the decimals of [prevToken]. *)
Lemma visitNext_pushes prevToken nextToken g :
  address nextToken ∉ tokenSet g →
  nodes (visitNext prevToken nextToken g) =
    (nodes g ++ [ {| node_type := "token";
                     node_id := address nextToken;
                     node_chainId := chainId nextToken;
                     node_symbol := symbol nextToken;
                     node_decimals := toString (decimals prevToken) |} ])%list.
Proof. intros Hfresh. unfold visitNext. by case_decide. Qed.

(** Each hop appends exactly one edge, annotated by its index. *)
Lemma hopLoop_edges ra rest : ∀ i prev g g',
  hopLoop ra i rest prev g = Return g' →
  ∃ es, edges g' = (edges g ++ es)%list ∧ length es = length rest ∧
        ∀ j e, es !! j = Some e →
               amountIn e = edgeAmountIn type ra (i + j) ∧
               amountOut e = edgeAmountOut type ra (i + j).
Proof.
  induction rest as [|p rest IH]; intros i prev g g' Hrun; simpl in Hrun.
  - inversion Hrun; subst. exists []. rewrite app_nil_r.
    split; [done|]. split; [done|]. intros j e Hj. by rewrite lookup_nil in Hj.
  - destruct (tokenPath (route ra) !! (i + 1)%nat) as [nextToken|]; [|done].
    destruct (tokenPath (route ra) !! i) as [tok_i|]; [|done].
    apply IH in Hrun as (es & Hes & Hlen & Ham). simpl in Hes.
    assert (Hn : edges (visitNext prev nextToken g) = edges g)
      by (unfold visitNext; by case_decide).
    rewrite Hn, <- app_assoc in Hes.
    eexists. split; [exact Hes|]. split; [simpl; by rewrite Hlen|].
    intros [|j] e Hj; simpl in Hj.
    + inversion Hj; subst; simpl. by rewrite Nat.add_0_r.
    + replace (i + S j)%nat with (S i + j)%nat by lia. by apply Ham.
Qed.

Lemma visitRoute_edges ra g g' :
  visitRoute ra g = Return g' →
  ∃ es, edges g' = (edges g ++ es)%list ∧
        length es = length (pools (route ra)) ∧
        ∀ j e, es !! j = Some e →
               amountIn e = edgeAmountIn type ra j ∧
               amountOut e = edgeAmountOut type ra j.
Proof.
  unfold RouteGraph.visitRoute. intros Hrun.
  destruct (tokenPath (route ra) !! 0%nat) as [prev|]; [|done].
  apply hopLoop_edges in Hrun as (es & Hes & Hlen & Ham).
  exists es. split; [|done].
  rewrite Hes. unfold visitFirst. by case_decide.
Qed.

Lemma hopOffset_cons ra ras k :
  hopOffset (ra :: ras) (S k) =
  (length (pools (route ra)) + hopOffset ras k)%nat.
Proof. reflexivity. Qed.

Lemma routeLoop_edges ras : ∀ g g',
  routeLoop ras g = Return g' →
  ∃ es, edges g' = (edges g ++ es)%list ∧
        length es = hopOffset ras (length ras) ∧
        ∀ k ra i, ras !! k = Some ra → (i < length (pools (route ra)))%nat →
          ∃ e, es !! (hopOffset ras k + i)%nat = Some e ∧
               amountIn e = edgeAmountIn type ra i ∧
               amountOut e = edgeAmountOut type ra i.
Proof.
  induction ras as [|ra ras IH]; intros g g' Hrun; simpl in Hrun.
  - inversion Hrun; subst. exists []. rewrite app_nil_r.
    split; [done|]. split; [done|]. intros k ra i Hk. by rewrite lookup_nil in Hk.
  - destruct (visitRoute ra g) as [g1|err] eqn:Hv; [|done].
    apply visitRoute_edges in Hv as (es1 & Hes1 & Hlen1 & Ham1).
    apply IH in Hrun as (es2 & Hes2 & Hlen2 & Ham2).
    exists (es1 ++ es2)%list. split; [by rewrite Hes2, Hes1, app_assoc|].
    split.
    { rewrite length_app, Hlen1, Hlen2. simpl length.
      by rewrite hopOffset_cons. }
    intros [|k] ra' i Hk Hi; simpl in Hk.
    + inversion Hk; subst ra'. change (hopOffset (ra :: ras) 0) with 0%nat.
      simpl. rewrite lookup_app_l by lia.
      destruct (lookup_lt_is_Some_2 es1 i) as [e He]; [lia|].
      exists e. split; [done|]. by apply Ham1.
    + rewrite hopOffset_cons, <- Hlen1, <- Nat.add_assoc.
      rewrite lookup_app_r by lia.
      replace (length es1 + (hopOffset ras k + i) - length es1)%nat
        with (hopOffset ras k + i)%nat by lia.
      by apply Ham2.
Qed.

(** C4. On well-formed paths the assembly returns; and in any returned
    graph, hop [i] of path [k] is the edge at position
    [hopOffset routeAmounts k + i]; it carries an amount-in exactly when it
    is the first hop (the path's amount under exactIn, its quote otherwise)
    and an amount-out exactly when it is the last hop (the path's quote under
    exactIn, its amount otherwise). Interior hops carry neither and the only
    hop of a one-hop path carries both. *)
Theorem edge_boundary_amounts (routeAmounts : list RouteAmount) :
  (Forall wellFormed routeAmounts → ∃ g, assemble routeAmounts = Return g) ∧
  (∀ g, assemble routeAmounts = Return g →
     length (edges g) = hopOffset routeAmounts (length routeAmounts) ∧
     ∀ k ra i, routeAmounts !! k = Some ra →
       (i < length (pools (route ra)))%nat →
       ∃ e, edges g !! (hopOffset routeAmounts k + i)%nat = Some e ∧
         amountIn e =
           (if decide (i = 0)%nat
            then Some (toString (quotient
                   (if decide (type = "exactIn") then amount ra else quote ra)))
            else None) ∧
         amountOut e =
           (if decide (i = length (pools (route ra)) - 1)%nat
            then Some (toString (quotient
                   (if decide (type = "exactIn") then quote ra else amount ra)))
            else None) ∧
         (0 < i < length (pools (route ra)) - 1 →
            amountIn e = None ∧ amountOut e = None)%nat ∧
         (length (pools (route ra)) = 1%nat →
            is_Some (amountIn e) ∧ is_Some (amountOut e))).
Proof.
  split; [intros Hwf; by apply routeLoop_returns|].
  intros g Hrun.
  apply routeLoop_edges in Hrun as (es & Hes & Hlen & Ham).
  simpl in Hes. subst es. split; [done|].
  intros k ra i Hk Hi. destruct (Ham k ra i Hk Hi) as (e & He & Hin & Hout).
  exists e. split; [done|].
  assert (HI : amountIn e =
    (if decide (i = 0)%nat
     then Some (toString (quotient
            (if decide (type = "exactIn") then amount ra else quote ra)))
     else None)).
  { rewrite Hin. unfold edgeAmountIn. repeat case_decide; done. }
  assert (HO : amountOut e =
    (if decide (i = length (pools (route ra)) - 1)%nat
     then Some (toString (quotient
            (if decide (type = "exactIn") then quote ra else amount ra)))
     else None)).
  { rewrite Hout. unfold edgeAmountOut. repeat case_decide; done || lia. }
  split; [exact HI|]. split; [exact HO|]. split.
  - intros Hmid. rewrite HI, HO. repeat case_decide; done || lia.
  - intros Hone. rewrite HI, HO. repeat case_decide; eauto || lia.
Qed.

End Facts.

(** Two paths sharing token B: B is a node once. *)
Lemma nodes_unique_witness :
  ∃ g, assemble Samples.samplePoolAddress "exactIn"
         [Samples.pathABC; Samples.pathDBE] = Return g ∧
       NoDup (node_id <$> nodes g).
Proof.
  destruct (nodes_unique Samples.samplePoolAddress "exactIn"
              [Samples.pathABC; Samples.pathDBE]) as [Hret Hnd].
  destruct Hret as [g Hg].
  - repeat constructor.
  - exists g. split; [exact Hg | exact (Hnd g Hg)].
Defined.

(** The path [A]-p1-[B]-p2-[C], amount 50, quote 47, exact input: the first
    edge carries only the amount-in, the second only the amount-out. *)
Lemma edge_boundary_amounts_witness :
  ∃ g e0 e1,
    assemble Samples.samplePoolAddress "exactIn" [Samples.pathABC] = Return g ∧
    edges g !! 0%nat = Some e0 ∧ edges g !! 1%nat = Some e1 ∧
    (amountIn e0 = Some "50" ∧ amountOut e0 = None) ∧
    (amountIn e1 = None ∧ amountOut e1 = Some "47").
Proof.
  destruct (edge_boundary_amounts Samples.samplePoolAddress "exactIn"
              [Samples.pathABC]) as [Hret Hedges].
  destruct Hret as [g Hg]; [repeat constructor|].
  destruct (Hedges g Hg) as [_ Hhop].
  destruct (Hhop 0%nat Samples.pathABC 0%nat eq_refl) as (e0 & He0 & Hin0 & Hout0 & _);
    [simpl; lia|].
  destruct (Hhop 0%nat Samples.pathABC 1%nat eq_refl) as (e1 & He1 & Hin1 & Hout1 & _);
    [simpl; lia|].
  exists g, e0, e1. repeat split; assumption.
Defined.

(** C5. The node pushed for a token met as the far end of a hop takes its
    symbol from that token but its decimals from the token before it on the
    path: on [A]-p1-[B] with A of 18 and B of 6 decimals, the node of B
    reports 18 decimals. *)
Theorem next_token_decimals_from_previous :
  ∃ g n,
    assemble Samples.samplePoolAddress "exactIn" [Samples.pathAB] = Return g ∧
    nodes g !! 1%nat = Some n ∧
    node_id n = address Samples.tokB ∧
    node_symbol n = symbol Samples.tokB ∧
    node_decimals n = toString (decimals Samples.tokA) ∧
    node_decimals n ≠ toString (decimals Samples.tokB).
Proof.
  eexists. eexists. split; [vm_compute; reflexivity|].
  split; [reflexivity|]. vm_compute. repeat split; discriminate.
Qed.

End RouteGraphFacts.

(** * Properties of the validator *)

Module JoiFacts.
Import Joi.

Lemma label_append_nonempty k rest : (label k ++ rest)%string ≠ "".
Proof. unfold label, dquote. simpl. discriminate. Qed.

(** *** Messages *)

Lemma rename_message rs : ∀ renamed o m,
  rename rs renamed o = inl m → m ≠ "".
Proof.
  induction rs as [|r rs IH]; intros renamed o m Hr; simpl in Hr; [done|].
  repeat case_match; try (by eapply IH);
    inversion Hr; apply label_append_nonempty.
Qed.

Lemma validateKeys_message children : ∀ o m,
  validateKeys children o = inl m → m ≠ "".
Proof.
  induction children as [|[k child] children IH]; intros o m Hv; simpl in Hv;
    [done|].
  destruct (rule child _) as [reason|v'].
  - inversion Hv. apply label_append_nonempty.
  - repeat case_match; by eapply IH.
Qed.

Lemma applyPatterns_message ps k item : ∀ cur m,
  applyPatterns ps k item cur = inl m → m ≠ "".
Proof.
  induction ps as [|p ps IH]; intros cur m Ha; simpl in Ha; [done|].
  destruct (matches p k); [|by eapply IH].
  destruct (pattern_rule p item) as [reason|v'].
  - inversion Ha. apply label_append_nonempty.
  - destruct (fallthrough p); [by eapply IH | done].
Qed.

Lemma processPatterns_message ps unprocessed : ∀ o m,
  processPatterns ps unprocessed o = inl m → m ≠ "".
Proof.
  induction unprocessed as [|k rest IH]; intros o m Hp; simpl in Hp; [done|].
  destruct (applyPatterns ps k _ None) as [m'|[v'|]] eqn:Ha.
  - inversion Hp; subst. by eapply applyPatterns_message.
  - by eapply IH.
  - by eapply IH.
Qed.

Lemma processUnknown_message flag opts unprocessed o m :
  processUnknown flag opts unprocessed o = inl m → m ≠ "".
Proof.
  unfold processUnknown. intros Hm.
  destruct (negb _); [|done].
  repeat case_match; try done; inversion Hm; apply label_append_nonempty.
Qed.

(** Every message of the validator starts with a quoted label. *)
Lemma validate_message schema v opts m :
  error (validate schema v opts) = Some m → m ≠ "".
Proof.
  unfold validate.
  destruct v; simpl; try (intros [= <-]; apply label_append_nonempty);
    try done.
  destruct (noRules schema); [done|].
  destruct (rename _ _ _) as [m'|o1] eqn:Hr; simpl.
  { intros [= <-]. by eapply rename_message. }
  destruct (anythingAllowed schema); [done|].
  destruct (validateKeys _ o1) as [m'|o2] eqn:Hk; simpl.
  { intros [= <-]. by eapply validateKeys_message. }
  destruct (processPatterns _ _ o2) as [m'|o3] eqn:Hp; simpl.
  { intros [= <-]. by eapply processPatterns_message. }
  destruct (processUnknown _ _ _ o3) as [m'|o4] eqn:Hu; simpl; [|done].
  intros [= <-]. by eapply processUnknown_message.
Qed.

(** *** Properties of objects *)

Lemma obj_get_is_Some k o : is_Some (obj_get k o) ↔ k ∈ o.*1.
Proof.
  induction o as [|[k' v] o IH]; simpl.
  - split; [by intros [? ?] | by intros ?%elem_of_nil].
  - rewrite elem_of_cons. case_decide as Hk.
    + split; [by left | by eauto].
    + rewrite IH. split; [by right | by intros [?|?]].
Qed.

Lemma obj_get_None k o : obj_get k o = None ↔ k ∉ o.*1.
Proof.
  rewrite <- obj_get_is_Some, eq_None_not_Some. done.
Qed.

Lemma obj_get_set_ne k k' v o :
  k ≠ k' → obj_get k (obj_set k' v o) = obj_get k o.
Proof.
  intros Hne. induction o as [|[k2 v2] o IH]; simpl.
  - by rewrite decide_False.
  - destruct (decide (k' = k2)) as [->|Hk2]; simpl.
    + by rewrite !decide_False.
    + by rewrite IH.
Qed.

Lemma obj_get_delete_ne k k' o :
  k ≠ k' → obj_get k (obj_delete k' o) = obj_get k o.
Proof.
  intros Hne. unfold obj_delete. induction o as [|[k2 v2] o IH]; [done|].
  rewrite filter_cons. simpl. destruct (decide (k2 ≠ k')) as [Hk2|Hk2]; simpl.
  - by rewrite IH.
  - apply dec_stable in Hk2. subst k2. by rewrite decide_False.
Qed.

Lemma obj_get_delete k o : obj_get k (obj_delete k o) = None.
Proof.
  apply obj_get_None. unfold obj_delete. rewrite list_elem_of_fmap.
  intros ([k' v] & -> & [Hne _]%list_elem_of_filter). by apply Hne.
Qed.

Lemma obj_get_delete_None k k' o :
  obj_get k o = None → obj_get k (obj_delete k' o) = None.
Proof.
  intros Hk. destruct (decide (k = k')) as [->|Hne].
  - apply obj_get_delete.
  - by rewrite obj_get_delete_ne.
Qed.

(** Deleting a list of properties. *)
Lemma obj_get_delete_all k (l : list string) o :
  obj_get k (foldr obj_delete o l) =
  if bool_decide (k ∈ l) then None else obj_get k o.
Proof.
  induction l as [|k' l IH]; cbn [foldr].
  - by rewrite bool_decide_eq_false_2 by apply not_elem_of_nil.
  - destruct (decide (k = k')) as [->|Hne].
    + rewrite obj_get_delete. by rewrite bool_decide_eq_true_2 by left.
    + rewrite obj_get_delete_ne, IH by done.
      rewrite (bool_decide_ext (k ∈ k' :: l) (k ∈ l)); [done|].
      rewrite elem_of_cons. naive_solver.
Qed.

(** *** The stages of [validate] *)

(** Renaming leaves a property alone that is neither source nor target. *)
Lemma rename_other rs k : ∀ renamed o o',
  rename rs renamed o = inr o' →
  k ∉ ((rename_from <$> rs) ++ (rename_to <$> rs))%list →
  obj_get k o' = obj_get k o.
Proof.
  induction rs as [|r rs IH]; intros renamed o o' Hr Hk; simpl in Hr.
  - by inversion Hr.
  - assert (Hfrom : k ≠ rename_from r).
    { intros ->. apply Hk. rewrite elem_of_app. left. simpl. by left. }
    assert (Hto : k ≠ rename_to r).
    { intros ->. apply Hk. rewrite elem_of_app. right. simpl. by left. }
    assert (Hk' : k ∉ ((rename_from <$> rs) ++ (rename_to <$> rs))%list).
    { intros [Hin|Hin]%elem_of_app; apply Hk; rewrite elem_of_app; simpl;
        [left|right]; by right. }
    repeat case_match; try done; rewrite (IH _ _ _ Hr Hk');
      by rewrite ?obj_get_delete_ne, ?obj_get_set_ne.
Qed.

(** Validating the declared keys leaves every other property as it is. *)
Lemma validateKeys_other children k : ∀ o o',
  validateKeys children o = inr o' →
  known children k = false →
  obj_get k o' = obj_get k o.
Proof.
  unfold known.
  induction children as [|[k1 child] children IH]; intros o o' Hv Hk;
    simpl in Hv.
  - by inversion Hv.
  - apply bool_decide_eq_false in Hk. simpl in Hk.
    apply not_elem_of_cons in Hk as [Hne Hk].
    assert (Hk' : bool_decide (k ∈ children.*1) = false)
      by by apply bool_decide_eq_false.
    destruct (rule child _) as [reason|v']; [done|].
    repeat case_match; rewrite (IH _ _ Hv Hk');
      by rewrite ?obj_get_delete_ne, ?obj_get_set_ne.
Qed.

Lemma applyPatterns_unmatched ps k item cur :
  matched ps k = false → applyPatterns ps k item cur = inr cur.
Proof.
  unfold matched. induction ps as [|p ps IH]; simpl; [done|].
  intros [Hp Hps]%orb_false_iff. rewrite Hp. by apply IH.
Qed.

(** The patterns leave a property alone that none of them matches. *)
Lemma processPatterns_other ps k unprocessed : ∀ o o',
  processPatterns ps unprocessed o = inr o' →
  matched ps k = false →
  obj_get k o' = obj_get k o.
Proof.
  induction unprocessed as [|k' rest IH]; intros o o' Hp Hk; simpl in Hp.
  - by inversion Hp.
  - destruct (applyPatterns ps k' _ None) as [m|[v'|]] eqn:Ha; [done|..].
    + rewrite (IH _ _ Hp Hk). apply obj_get_set_ne. intros ->.
      rewrite applyPatterns_unmatched in Ha by done. done.
    + by apply IH.
Qed.

Lemma anythingAllowed_false schema :
  anythingAllowed schema = false ↔
  is_Some (keys schema) ∨ patterns schema ≠ [].
Proof.
  unfold anythingAllowed.
  destruct (keys schema) as [children|], (patterns schema) as [|p ps];
    split; try done; eauto.
  - intros [[? ?]|?]; done.
Qed.

Lemma noRules_false schema :
  anythingAllowed schema = false → noRules schema = false.
Proof. unfold noRules. by intros ->. Qed.

(** Under [stripUnknown], a schema with keys or patterns that is not marked
    [.unknown()] leaves no property in a value that passes but those it
    declares or matches. *)
Lemma validate_strips schema o opts v' :
  is_Some (keys schema) ∨ patterns schema ≠ [] →
  unknown schema ≠ Some true →
  stripUnknown opts = true →
  error (validate schema (VObj o) opts) = None →
  result_value (validate schema (VObj o) opts) = v' →
  ∃ o', v' = VObj o' ∧ ∀ k, covered schema k = false → obj_get k o' = None.
Proof.
  intros Hany%anythingAllowed_false Hflag Hstrip. unfold validate.
  rewrite (noRules_false _ Hany), Hany.
  destruct (rename _ _ _) as [m|o1] eqn:Hr; simpl; [done|].
  destruct (validateKeys _ o1) as [m|o2] eqn:Hk; simpl; [done|].
  destruct (processPatterns _ _ o2) as [m|o3] eqn:Hp; simpl; [done|].
  destruct (processUnknown _ _ _ o3) as [m|o4] eqn:Hu; simpl; [done|].
  intros _ <-. eexists. split; [done|].
  intros k [Hdecl Hmatch]%orb_false_iff. unfold declared in Hdecl.
  assert (Hk3 : obj_get k o3 = obj_get k o1).
  { rewrite (processPatterns_other _ _ _ _ _ Hp Hmatch).
    by apply (validateKeys_other _ _ _ _ Hk). }
  unfold processUnknown in Hu. rewrite Hstrip in Hu. simpl in Hu.
  destruct (obj_get k o1) as [v1|] eqn:Hk1.
  - assert (Hin : k ∈ filter (fun k => matched (patterns schema) k = false)
                      (filter (fun k => known (default [] (keys schema)) k
                                        = false) o1.*1)).
    { apply list_elem_of_filter. split; [done|].
      apply list_elem_of_filter. split; [done|].
      apply obj_get_is_Some. by rewrite Hk1. }
    destruct (unknown schema) as [[|]|]; [done|..]; simpl in Hu.
    + destruct (filter _ (filter _ _)); [by apply elem_of_nil in Hin|done].
    + assert (o4 = foldr obj_delete o3
                (filter (fun k => matched (patterns schema) k = false)
                   (filter (fun k => known (default [] (keys schema)) k
                                     = false) o1.*1))) as ->
        by (destruct (negb (allowUnknown opts)); by inversion Hu).
      rewrite obj_get_delete_all. by rewrite bool_decide_eq_true_2.
  - assert (Hcases : o4 = o3 ∨ ∃ l, o4 = foldr obj_delete o3 l).
    { repeat case_match; inversion Hu; eauto. }
    destruct Hcases as [->|[l ->]]; [congruence|].
    rewrite obj_get_delete_all, Hk3. by destruct (bool_decide (k ∈ l)).
Qed.

(** A schema marked [.unknown()] keeps every property of a value that
    passes which it neither declares, matches nor renames, with its
    value. *)
Lemma validate_keeps schema o opts v' :
  unknown schema = Some true →
  error (validate schema (VObj o) opts) = None →
  result_value (validate schema (VObj o) opts) = v' →
  ∃ o', v' = VObj o' ∧
        ∀ k, covered schema k = false → renaming schema k = false →
             obj_get k o' = obj_get k o.
Proof.
  intros Hflag. unfold validate.
  destruct (noRules schema); simpl; [intros _ <-; by eexists|].
  destruct (rename _ _ _) as [m|o1] eqn:Hr; simpl; [done|].
  assert (Hren : ∀ k, renaming schema k = false →
                      obj_get k o1 = obj_get k o).
  { intros k Hk%bool_decide_eq_false. by eapply rename_other. }
  destruct (anythingAllowed schema); simpl.
  { intros _ <-. eexists. split; [done|]. intros k _. apply Hren. }
  destruct (validateKeys _ o1) as [m|o2] eqn:Hk; simpl; [done|].
  destruct (processPatterns _ _ o2) as [m|o3] eqn:Hp; simpl; [done|].
  unfold processUnknown. rewrite Hflag. simpl. rewrite andb_false_r. simpl.
  intros _ <-. eexists. split; [done|].
  intros k [Hdecl Hmatch]%orb_false_iff Hk0.
  rewrite (processPatterns_other _ _ _ _ _ Hp Hmatch).
  rewrite (validateKeys_other _ _ _ _ Hk Hdecl). by apply Hren.
Qed.

(** A schema without keys, patterns and renames hands an object on as it
    is. *)
Lemma validate_keyless schema o opts :
  keys schema = None → patterns schema = [] → renames schema = [] →
  validate schema (VObj o) opts = {| error := None; result_value := VObj o |}.
Proof.
  unfold validate, noRules, anythingAllowed. by intros -> -> ->.
Qed.

(** Under the handler's preferences [{b: 1, x1: 2, y: 3}] becomes
    [{x1: 2, a: 1}]: [b] is renamed to the declared [a], [x1] matches the
    pattern, [y] is stripped. With [a] already there the rename is
    refused. *)
Example validate_renamed :
  validate Samples.schemaRenamed
    (VObj [("b", VNum 1); ("x1", VNum 2); ("y", VNum 3)])
    {| allowUnknown := true; stripUnknown := true |} =
    {| error := None;
       result_value := VObj [("x1", VNum 2); ("a", VNum 1)] |} ∧
  error (validate Samples.schemaRenamed
    (VObj [("a", VNum 0); ("b", VNum 1)])
    {| allowUnknown := true; stripUnknown := true |}) =
    Some (label "value" ++ " cannot rename " ++ label "b" ++
          " because override is disabled and target " ++ label "a" ++
          " exists").
Proof. split; reflexivity. Qed.

End JoiFacts.

(** * Properties of the injector *)

Module InjectorFacts.
Import Handler.

Section Facts.
Context {CInj RInj MetricsLogger : Type}.

(** C7, amended. The accessor throws as long as the field is [undefined]:
    on an injector whose build has not completed (freshly constructed, or
    whose build failed), and also after a build whose
    [buildContainerInjected] resolved to [undefined]. After a build that
    produced an object the accessor hands out that object, whatever
    [buildContainerInjected] would produce if it were called again. *)
Theorem accessor_guarded (this : Injector CInj RInj MetricsLogger) :
  (containerInjected this = None →
     getContainerInjected this =
       Throw (Error "Container injected undefined. Must call build() before using.") ∧
     ∀ e, buildContainerInjected this = Throw e → build this = Throw e) ∧
  (∀ this', build this = Return this' →
     ∃ o, buildContainerInjected this = Return o ∧
          containerInjected this' = o ∧
          match o with
          | Some c =>
            getContainerInjected this' = Return c ∧
            ∀ rebuilt,
              getContainerInjected
                {| containerInjected := containerInjected this';
                   getRequestInjected := getRequestInjected this';
                   buildContainerInjected := rebuilt |} = Return c
          | None =>
            getContainerInjected this' =
              Throw (Error "Container injected undefined. Must call build() before using.")
          end).
Proof.
  split.
  - intros Hnone. split.
    + unfold getContainerInjected. by rewrite Hnone.
    + intros e He. unfold build. by rewrite He.
  - intros this' Hbuild. unfold build in Hbuild.
    destruct (buildContainerInjected this) as [o|e] eqn:Ho; [|done].
    simpl in Hbuild. inversion Hbuild; subst this'. exists o.
    split; [done|]. split; [done|]. by destruct o.
Qed.

End Facts.

(** A fresh injector refuses; after [build] it hands out the container. *)
Lemma accessor_guarded_witness :
  getContainerInjected Samples.sampleInjector =
    Throw (Error "Container injected undefined. Must call build() before using.") ∧
  ∃ this', build Samples.sampleInjector = Return this' ∧
           getContainerInjected this' = Return 7%Z.
Proof.
  destruct (accessor_guarded Samples.sampleInjector) as [Hbefore Hafter].
  split.
  - exact (proj1 (Hbefore eq_refl)).
  - exists Samples.builtInjector. split; [reflexivity|].
    destruct (Hafter Samples.builtInjector eq_refl) as (o & Ho & _ & Hget).
    simpl in Ho. inversion Ho; subst o. exact (proj1 Hget).
Defined.

(** C7 as stated fails: the build of an injector whose
    [buildContainerInjected] resolves to [undefined] completes, and the
    accessor still throws afterwards. *)
Lemma accessor_throws_after_build :
  ∃ this', build Samples.voidInjector = Return this' ∧
           getContainerInjected this' =
             Throw (Error "Container injected undefined. Must call build() before using.").
Proof. eexists. split; reflexivity. Qed.

End InjectorFacts.

(** * Properties of the handler *)

Module HandlerFacts.
Import Handler.

(** Unfolds the monadic plumbing of [handler], leaving the calls to the
    stages in place so that they can be rewritten. *)
Ltac run_handler :=
  cbv [handler mbind M_bind mret M_ret try_catch await log_info log_error];
  cbv beta iota.

Ltac stage H := rewrite ?H; cbv beta iota.

Section Facts.
Context {CInj RInj MetricsLogger : Type} `{BaseRInj RInj}.
Variable JSON : JSONRuntime.
Variable INTERNAL_ERROR : APIGatewayProxyResult.
Local Abbreviation APIGLambdaHandler := (APIGLambdaHandler CInj RInj MetricsLogger).
Local Abbreviation handler :=
  (@Handler.handler CInj RInj MetricsLogger _ JSON INTERNAL_ERROR).
Local Abbreviation parseAndValidateRequest :=
  (@Handler.parseAndValidateRequest CInj RInj MetricsLogger JSON).

Lemma getContainerInjected_built (inj : Injector CInj RInj MetricsLogger) c :
  containerInjected inj = Some c → getContainerInjected inj = Return c.
Proof. unfold getContainerInjected. by intros ->. Qed.

Lemma isError_spec res :
  isError res = true ↔
  result_statusCode res ≠ 200%Z ∧ result_statusCode res ≠ 202%Z.
Proof.
  unfold isError. rewrite andb_true_iff, !negb_true_iff, !Z.eqb_neq. tauto.
Qed.

Lemma isError_false res :
  isError res = false ↔
  result_statusCode res = 200%Z ∨ result_statusCode res = 202%Z.
Proof.
  unfold isError. rewrite andb_false_iff, !negb_false_iff, !Z.eqb_eq. tauto.
Qed.

(** The constant [INTERNAL_ERROR], once its module has been loaded, has
    status 500 and the serialised code and detail as its body. *)
Lemma INTERNAL_ERROR_loaded :
  INTERNAL_ERROR_init JSON = Return INTERNAL_ERROR →
  statusCode INTERNAL_ERROR = 500%Z.
Proof.
  unfold INTERNAL_ERROR_init. cbv [mbind outcome_bind].
  destruct (JSON_stringify JSON _); [|done]. by intros [= <-].
Qed.

(** *** What [handler] does, stage by stage *)

Lemma handler_request_throws this metric event context tr e :
  parseAndValidateRequest this event = Throw e →
  (handler this metric event context tr).1 = Return INTERNAL_ERROR.
Proof. intros Hreq. run_handler. by stage Hreq. Qed.

Lemma handler_request_invalid this metric event context tr r :
  parseAndValidateRequest this event = Return (invalid r) →
  (handler this metric event context tr).1 = Return r.
Proof. intros Hreq. run_handler. by stage Hreq. Qed.

Lemma handler_container_throws this metric event context tr request :
  parseAndValidateRequest this event = Return (valid request) →
  containerInjected (injector this) = None →
  (handler this metric event context tr).1 =
    Throw (Error "Container injected undefined. Must call build() before using.").
Proof.
  intros Hreq Hc. run_handler. stage Hreq.
  unfold getContainerInjected. by rewrite Hc.
Qed.

Lemma handler_requestInjected_throws this metric event context tr request c e :
  parseAndValidateRequest this event = Return (valid request) →
  containerInjected (injector this) = Some c →
  getRequestInjected (injector this) c request event context
    (logger0 this context) metric = Throw e →
  (handler this metric event context tr).1 = Return INTERNAL_ERROR.
Proof.
  intros Hreq Hc%getContainerInjected_built Hri. unfold logger0 in Hri.
  run_handler. stage Hreq. stage Hc. by stage Hri.
Qed.

Lemma handler_handleRequest_throws this metric event context tr request c ri e :
  parseAndValidateRequest this event = Return (valid request) →
  containerInjected (injector this) = Some c →
  getRequestInjected (injector this) c request event context
    (logger0 this context) metric = Return ri →
  handleRequest this (paramsOf event context request c ri) = Throw e →
  (handler this metric event context tr).1 = Return INTERNAL_ERROR.
Proof.
  intros Hreq Hc%getContainerInjected_built Hri Hres.
  unfold logger0 in Hri. unfold paramsOf in Hres.
  run_handler. stage Hreq. stage Hc. stage Hri. by stage Hres.
Qed.

Lemma handler_error_result this metric event context tr request c ri res :
  parseAndValidateRequest this event = Return (valid request) →
  containerInjected (injector this) = Some c →
  getRequestInjected (injector this) c request event context
    (logger0 this context) metric = Return ri →
  handleRequest this (paramsOf event context request c ri) = Return res →
  isError res = true →
  handler this metric event context tr =
    match JSON_stringify JSON (errorBody res) with
    | Return text =>
      (Return {| statusCode := result_statusCode res; body := text |},
       (tr ++ [ {| record_logger := logger0 this context;
                   record_level := INFO;
                   record_err := None; record_msg := "Request started." |};
                {| record_logger := log ri; record_level := INFO;
                   record_err := None;
                   record_msg := "Invoking handle request" |} ])%list)
    | Throw e =>
      (Return INTERNAL_ERROR,
       (tr ++ [ {| record_logger := logger0 this context;
                   record_level := INFO;
                   record_err := None; record_msg := "Request started." |};
                {| record_logger := log ri; record_level := INFO;
                   record_err := None;
                   record_msg := "Invoking handle request" |};
                {| record_logger := log ri; record_level := ERROR;
                   record_err := Some e;
                   record_msg := "Unexpected error in handler" |} ])%list)
    end.
Proof.
  intros Hreq Hc%getContainerInjected_built Hri Hres Herr.
  unfold logger0 in *. unfold paramsOf in Hres. unfold errorBody.
  run_handler. stage Hreq. stage Hc. stage Hri. stage Hres. stage Herr.
  destruct (JSON_stringify JSON _); by rewrite <- !app_assoc.
Qed.

Lemma handler_success_result this metric event context tr request c ri res :
  parseAndValidateRequest this event = Return (valid request) →
  containerInjected (injector this) = Some c →
  getRequestInjected (injector this) c request event context
    (logger0 this context) metric = Return ri →
  handleRequest this (paramsOf event context request c ri) = Return res →
  isError res = false →
  (handler this metric event context tr).1 =
    match parseAndValidateResponse this (result_body res) with
    | Return (valid response) =>
      match JSON_stringify JSON response with
      | Return text =>
        Return {| statusCode := result_statusCode res; body := text |}
      | Throw e => Throw e
      end
    | Return (invalid errorResponse) => Return errorResponse
    | Throw _ => Return INTERNAL_ERROR
    end.
Proof.
  intros Hreq Hc%getContainerInjected_built Hri Hres Herr.
  unfold logger0 in *. unfold paramsOf in Hres.
  run_handler. stage Hreq. stage Hc. stage Hri. stage Hres. stage Herr.
  destruct (parseAndValidateResponse this (result_body res)) as [[?|?]|?];
    try done.
  cbv beta iota. by destruct (JSON_stringify JSON _).
Qed.

Lemma request_unparseable this event e :
  JSON_parse JSON (default "" (event_body event)) = Throw e →
  parseAndValidateRequest this event =
    Return (invalid {| statusCode := 422; body := "" |}).
Proof. unfold Handler.parseAndValidateRequest. by intros ->. Qed.

Lemma request_rejected this event body schema message :
  JSON_parse JSON (default "" (event_body event)) = Return body →
  requestBodySchema this = Return (Some schema) →
  Joi.error (Joi.validate schema body
    {| Joi.allowUnknown := true; Joi.stripUnknown := true |}) = Some message →
  parseAndValidateRequest this event =
    Return (invalid {| statusCode := 400; body := message |}).
Proof.
  unfold Handler.parseAndValidateRequest. intros -> -> Hm. simpl.
  by rewrite Hm.
Qed.

Lemma response_rejected (this : APIGLambdaHandler) body schema message :
  responseBodySchema this = Return (Some schema) →
  Joi.error (Joi.validate schema body
    {| Joi.allowUnknown := true; Joi.stripUnknown := true |}) = Some message →
  parseAndValidateResponse this body =
    Return (invalid {| statusCode := 500; body := "Internal error" |}).
Proof.
  unfold parseAndValidateResponse. intros -> Hm. simpl. by rewrite Hm.
Qed.

(** *** The claims *)

Ltac no_guarded_stage :=
  intros [[? ?]|(? & ? & [[? ?]|(? & ? &
    [[? ?]|(? & ? & [[? [? ?]]|[? [? ?]]])])])];
  congruence.



(** C6. An unparseable body is answered with 422 and an empty body; a body
    the request schema rejects with 400 and the validator's message, which
    is not empty; a successful result the response schema rejects with 500
    and the fixed text, whatever the validator's message was. *)
Theorem validation_failure_statuses (this : APIGLambdaHandler) metric event context tr :
  ((∃ e, JSON_parse JSON (default "" (event_body event)) = Throw e) →
     (handler this metric event context tr).1 =
       Return {| statusCode := 422; body := "" |}) ∧
  (∀ body schema message,
     JSON_parse JSON (default "" (event_body event)) = Return body →
     requestBodySchema this = Return (Some schema) →
     Joi.error (Joi.validate schema body
       {| Joi.allowUnknown := true; Joi.stripUnknown := true |}) = Some message →
     (handler this metric event context tr).1 =
       Return {| statusCode := 400; body := message |} ∧
     message ≠ "") ∧
  (∀ request c ri res schema message,
     parseAndValidateRequest this event = Return (valid request) →
     containerInjected (injector this) = Some c →
     getRequestInjected (injector this) c request event context
       (logger0 this context) metric = Return ri →
     handleRequest this (paramsOf event context request c ri) = Return res →
     isError res = false →
     responseBodySchema this = Return (Some schema) →
     Joi.error (Joi.validate schema (result_body res)
       {| Joi.allowUnknown := true; Joi.stripUnknown := true |}) = Some message →
     (handler this metric event context tr).1 =
       Return {| statusCode := 500; body := "Internal error" |}).
Proof.
  split; [|split].
  - intros [e He]. eapply handler_request_invalid, request_unparseable, He.
  - intros body schema message Hparse Hschema Hm. split.
    + by eapply handler_request_invalid, request_rejected.
    + by eapply JoiFacts.validate_message.
  - intros request c ri res schema message Hreq Hc Hri Hres Herr Hschema Hm.
    erewrite handler_success_result by eassumption.
    by erewrite response_rejected.
Qed.


(** C9. A typed error result is answered with its own status code and the
    serialisation of exactly its [detail] and [errorCode]; nothing but the
    two [info] records is logged and the response schema is not consulted
    (no assumption is made on it). Should that serialisation throw, the
    exception is caught like any other of the business-logic stage. *)
Theorem business_error_passthrough (this : APIGLambdaHandler)
    metric event context tr request c ri code errorCode detail :
  parseAndValidateRequest this event = Return (valid request) →
  containerInjected (injector this) = Some c →
  getRequestInjected (injector this) c request event context
    (logger0 this context) metric = Return ri →
  handleRequest this (paramsOf event context request c ri) =
    Return (ErrorResponse code errorCode detail) →
  code ∈ errorStatusCodes →
  handler this metric event context tr =
    match JSON_stringify JSON
            (VObj [("detail", from_option VStr VUndefined detail);
                   ("errorCode", VStr errorCode)]) with
    | Return text =>
      (Return {| statusCode := code; body := text |},
       (tr ++ [ {| record_logger := logger0 this context;
                   record_level := INFO;
                   record_err := None; record_msg := "Request started." |};
                {| record_logger := log ri; record_level := INFO;
                   record_err := None;
                   record_msg := "Invoking handle request" |} ])%list)
    | Throw e =>
      (Return INTERNAL_ERROR,
       (tr ++ [ {| record_logger := logger0 this context;
                   record_level := INFO;
                   record_err := None; record_msg := "Request started." |};
                {| record_logger := log ri; record_level := INFO;
                   record_err := None;
                   record_msg := "Invoking handle request" |};
                {| record_logger := log ri; record_level := ERROR;
                   record_err := Some e;
                   record_msg := "Unexpected error in handler" |} ])%list)
    end.
Proof.
  intros Hreq Hc Hri Hres Hcode.
  rewrite (handler_error_result this metric event context tr request c ri _
             Hreq Hc Hri Hres); [reflexivity|].
  apply isError_spec. simpl. unfold errorStatusCodes in Hcode.
  set_unfold. lia.
Qed.

(** C10. Whether a result is handled as an error is read off its status
    code alone: it is an error exactly when the code is neither 200 nor 202.
    Such a result is answered from its [detail] and [errorCode] without its
    body being looked at; with code 200 or 202 the answer is what validating
    the body against the response schema gives. *)
Theorem variant_decided_by_statusCode (this : APIGLambdaHandler)
    metric event context tr request c ri res :
  parseAndValidateRequest this event = Return (valid request) →
  containerInjected (injector this) = Some c →
  getRequestInjected (injector this) c request event context
    (logger0 this context) metric = Return ri →
  handleRequest this (paramsOf event context request c ri) = Return res →
  (isError res = true ↔
     result_statusCode res ≠ 200%Z ∧ result_statusCode res ≠ 202%Z) ∧
  (result_statusCode res ≠ 200%Z → result_statusCode res ≠ 202%Z →
     (handler this metric event context tr).1 =
       match JSON_stringify JSON
               (VObj [("detail", result_detail res);
                      ("errorCode", result_errorCode res)]) with
       | Return text =>
         Return {| statusCode := result_statusCode res; body := text |}
       | Throw _ => Return INTERNAL_ERROR
       end) ∧
  (result_statusCode res = 200%Z ∨ result_statusCode res = 202%Z →
     (handler this metric event context tr).1 =
       match parseAndValidateResponse this (result_body res) with
       | Return (valid response) =>
         match JSON_stringify JSON response with
         | Return text =>
           Return {| statusCode := result_statusCode res; body := text |}
         | Throw e => Throw e
         end
       | Return (invalid errorResponse) => Return errorResponse
       | Throw _ => Return INTERNAL_ERROR
       end).
Proof.
  intros Hreq Hc Hri Hres. split; [apply isError_spec|]. split.
  - intros H200 H202.
    rewrite (handler_error_result this metric event context tr request c ri _
               Hreq Hc Hri Hres); [|by apply isError_spec].
    unfold errorBody. by destruct (JSON_stringify JSON _).
  - intros Hcode. eapply handler_success_result; [eassumption..|].
    by apply isError_false.
Qed.

End Facts.

Import Samples.





Lemma validation_failure_statuses_witness :
  (handler sampleJSON sampleINTERNAL_ERROR (echoHandler builtInjector None None)
     tt (eventOf "nope") sampleContext []).1 =
    Return {| statusCode := 422; body := "" |} ∧
  (handler sampleJSON sampleINTERNAL_ERROR
     (echoHandler builtInjector (Some schemaReqA) None) tt
     (eventOf "{}") sampleContext []).1 =
    Return {| statusCode := 400;
              body := (Joi.label "a" ++ " is required")%string |} ∧
  (handler sampleJSON sampleINTERNAL_ERROR
     (echoHandler builtInjector None (Some schemaReqA)) tt
     (eventOf "{}") sampleContext []).1 =
    Return {| statusCode := 500; body := "Internal error" |}.
Proof.
  split; [|split].
  - apply (proj1 (validation_failure_statuses sampleJSON sampleINTERNAL_ERROR
                    (echoHandler builtInjector None None) tt (eventOf "nope")
                    sampleContext [])).
    eexists. reflexivity.
  - apply (proj1 (proj2 (validation_failure_statuses sampleJSON
                    sampleINTERNAL_ERROR
                    (echoHandler builtInjector (Some schemaReqA) None) tt
                    (eventOf "{}") sampleContext []))
             (VObj []) schemaReqA); reflexivity.
  - apply (proj2 (proj2 (validation_failure_statuses sampleJSON
                    sampleINTERNAL_ERROR
                    (echoHandler builtInjector None (Some schemaReqA)) tt
                    (eventOf "{}") sampleContext []))
             (VObj []) 7%Z refinedLogger (Response 200 (VObj [])) schemaReqA
             (Joi.label "a" ++ " is required")%string); reflexivity.
Defined.



(** A 404 of the business logic leaves unchanged although the handler has no
    usable response schema. *)
Lemma business_error_passthrough_witness :
  (handler sampleJSON sampleINTERNAL_ERROR noRouteHandler tt (eventOf "{}")
     sampleContext []).1 =
    Return {| statusCode := 404;
              body := sampleStringify
                (VObj [("detail", VStr "No route found");
                       ("errorCode", VStr "NO_ROUTE")]) |}.
Proof.
  rewrite (business_error_passthrough sampleJSON sampleINTERNAL_ERROR
             noRouteHandler tt
             (eventOf "{}") sampleContext [] (VObj []) 7%Z refinedLogger
             404%Z "NO_ROUTE" (Some "No route found")
             eq_refl eq_refl eq_refl eq_refl).
  - reflexivity.
  - unfold errorStatusCodes. set_solver.
Defined.

Lemma variant_decided_by_statusCode_witness :
  isError (ErrorResponse 404 "NO_ROUTE" (Some "No route found")) = true ∧
  (handler sampleJSON sampleINTERNAL_ERROR noRouteHandler tt (eventOf "{}")
     sampleContext []).1 =
    Return {| statusCode := 404;
              body := sampleStringify
                (VObj [("detail", VStr "No route found");
                       ("errorCode", VStr "NO_ROUTE")]) |}.
Proof.
  destruct (variant_decided_by_statusCode sampleJSON sampleINTERNAL_ERROR
              noRouteHandler tt
              (eventOf "{}") sampleContext [] (VObj []) 7%Z refinedLogger
              (ErrorResponse 404 "NO_ROUTE" (Some "No route found"))
              eq_refl eq_refl eq_refl eq_refl) as (Hiff & Herr & _).
  split.
  - apply Hiff. split; discriminate.
  - rewrite Herr by discriminate. reflexivity.
Defined.

End HandlerFacts.

(** * Properties of the pool-caching job *)

Module CachePoolsFacts.
Import CachePools.

Lemma skipsOf_app tr1 tr2 : skipsOf (tr1 ++ tr2) = (skipsOf tr1 ++ skipsOf tr2)%list.
Proof. apply omap_app. Qed.

Lemma putsOf_app tr1 tr2 : putsOf (tr1 ++ tr2) = (putsOf tr1 ++ putsOf tr2)%list.
Proof. apply omap_app. Qed.

(** The skips of [n] consecutive pages starting at page [j]. *)
Lemma skips_cons (j n : nat) :
  ((fun i : nat => PAGE_SIZE * Z.of_nat i)%Z <$> seq j (S n)) =
  (PAGE_SIZE * Z.of_nat j)%Z ::
    ((fun i : nat => PAGE_SIZE * Z.of_nat i)%Z <$> seq (S j) n).
Proof. reflexivity. Qed.

Section Facts.
Variable srv : Services.

(** The loop asks for consecutive pages, appends them in order, and stops at
    the first page that is empty or whose query fails. *)
Lemma pageLoop_run (pages : list (list value)) (final : outcome (list value)) :
  ∀ (fuel j : nat) (pools : list value) (tr : list Event),
  Forall (fun p => p ≠ []) pages →
  (∀ i p, pages !! i = Some p →
     request srv SUBGRAPH_URL PAGE_SIZE (PAGE_SIZE * Z.of_nat (j + i)) = Return p) →
  request srv SUBGRAPH_URL PAGE_SIZE (PAGE_SIZE * Z.of_nat (j + length pages)) =
    final →
  (final = Return [] ∨ ∃ e, final = Throw e) →
  (length pages < fuel)%nat →
  ∃ tr', pageLoop srv fuel (PAGE_SIZE * Z.of_nat j) pools tr =
           Some (match final with
                 | Return _ => Return (pools ++ concat pages)%list
                 | Throw e => Throw e
                 end, tr') ∧
         skipsOf tr' =
           (skipsOf tr ++
            ((fun i : nat => PAGE_SIZE * Z.of_nat i)%Z <$>
               seq j (S (length pages))))%list ∧
         putsOf tr' = putsOf tr.
Proof.
  induction pages as [|p pages IH]; intros fuel j pools tr Hne Hreq Hfin Hshape Hfuel.
  - destruct fuel as [|fuel]; [simpl in Hfuel; lia|]. simpl in *.
    rewrite Nat.add_0_r in Hfin. rewrite Hfin.
    destruct Hshape as [->|[e ->]]; simpl.
    + eexists. split; [by rewrite !app_nil_r|].
      by rewrite skipsOf_app, putsOf_app, app_nil_r.
    + eexists. split; [done|].
      by rewrite skipsOf_app, putsOf_app, app_nil_r.
  - destruct fuel as [|fuel]; [simpl in Hfuel; lia|].
    apply Forall_cons in Hne as [Hp Hne].
    cbn [pageLoop]. pose proof (Hreq 0%nat p eq_refl) as Hp0.
    rewrite Nat.add_0_r in Hp0. rewrite Hp0.
    destruct (decide (0 < length p)%nat) as [_|Hlen];
      [|destruct p; [done | simpl in Hlen; lia]].
    replace (PAGE_SIZE * Z.of_nat j + PAGE_SIZE)%Z
      with (PAGE_SIZE * Z.of_nat (S j))%Z by lia.
    destruct (IH fuel (S j) (pools ++ p)%list
                (tr ++ [Request SUBGRAPH_URL PAGE_SIZE (PAGE_SIZE * Z.of_nat j)])%list)
      as (tr' & Hrun & Hskips & Hputs); [done| | |done|simpl in Hfuel; lia|].
    { intros i q Hq. replace (S j + i)%nat with (j + S i)%nat by lia.
      by apply Hreq. }
    { replace (S j + length pages)%nat with (j + length (p :: pages))%nat
        by (simpl; lia). done. }
    exists tr'. split; [|split].
    + rewrite Hrun. simpl concat. by rewrite app_assoc.
    + rewrite Hskips, skipsOf_app. cbn [length]. rewrite (skips_cons j).
      by rewrite <- app_assoc.
    + rewrite Hputs, putsOf_app. simpl. by rewrite app_nil_r.
Qed.

(** The run of the job against [k] non-empty pages followed by an empty
    one. *)
Lemma handler_run (pages : list (list value)) fuel eventId tr :
  Forall (fun p => p ≠ []) pages →
  (∀ i p, pages !! i = Some p →
     request srv SUBGRAPH_URL PAGE_SIZE (PAGE_SIZE * Z.of_nat i) = Return p) →
  request srv SUBGRAPH_URL PAGE_SIZE (PAGE_SIZE * Z.of_nat (length pages)) =
    Return [] →
  (length pages < fuel)%nat →
  ∃ tr', handler srv fuel eventId tr =
           Some (match pages with
                 | [] => Return tt
                 | _ =>
                   match Handler.JSON_stringify (JSON srv)
                           (VArr (concat pages)) with
                   | Return Body =>
                     putObject srv (POOL_CACHE_BUCKET srv)
                       (POOL_CACHE_KEY srv) Body
                   | Throw e => Throw e
                   end
                 end, tr') ∧
         skipsOf tr' =
           (skipsOf tr ++
            ((fun i : nat => PAGE_SIZE * Z.of_nat i)%Z <$>
               seq 0 (S (length pages))))%list ∧
         putsOf tr' =
           (putsOf tr ++
            match pages with
            | [] => []
            | _ =>
              match Handler.JSON_stringify (JSON srv)
                      (VArr (concat pages)) with
              | Return Body => [Body]
              | Throw _ => []
              end
            end)%list.
Proof.
  intros Hne Hreq Hlast Hfuel. unfold handler.
  set (tr0 := (tr ++ [info _ _])%list).
  destruct (pageLoop_run pages (Return []) fuel 0 [] tr0)
    as (tr1 & Hrun & Hskips & Hputs); [done|done|done|by left|done|].
  change (PAGE_SIZE * Z.of_nat 0)%Z with 0%Z in Hrun. rewrite Hrun.
  assert (Hs0 : skipsOf tr0 = skipsOf tr)
    by (unfold tr0; rewrite skipsOf_app; simpl; by rewrite app_nil_r).
  assert (Hp0 : putsOf tr0 = putsOf tr)
    by (unfold tr0; rewrite putsOf_app; simpl; by rewrite app_nil_r).
  rewrite Hs0 in Hskips. rewrite Hp0 in Hputs.
  destruct pages as [|p pages].
  - simpl. eexists. split; [done|]. by rewrite Hskips, Hputs, app_nil_r.
  - apply Forall_cons in Hne as [Hp _].
    destruct (decide (length ([] ++ concat (p :: pages)) = 0)%nat) as [Hz|_].
    { destruct p; [done|]. simpl in Hz. lia. }
    change ([] ++ concat (p :: pages))%list with (concat (p :: pages)).
    destruct (Handler.JSON_stringify (JSON srv) (VArr (concat (p :: pages))));
      (eexists; split; [reflexivity|]);
      rewrite ?skipsOf_app, ?putsOf_app, Hskips, Hputs; simpl;
      by rewrite !app_nil_r.
Qed.

(** X1. When the subgraph serves [k] non-empty pages and then an empty one,
    the job sends exactly the [k + 1] queries with skip 0, 1000, ..., 1000 k,
    and, unless there was no pool at all, puts one object whose body is the
    serialisation of all pages in the order served; its outcome is that of
    the put. With no pool at all nothing is put. (Should serialising the
    pools throw, the job fails with that error instead of putting.) *)
Theorem job_collects_pages (pages : list (list value)) fuel eventId tr :
  Forall (fun p => p ≠ []) pages →
  (∀ i p, pages !! i = Some p →
     request srv SUBGRAPH_URL PAGE_SIZE (PAGE_SIZE * Z.of_nat i) = Return p) →
  request srv SUBGRAPH_URL PAGE_SIZE (PAGE_SIZE * Z.of_nat (length pages)) =
    Return [] →
  (length pages < fuel)%nat →
  ∃ tr', handler srv fuel eventId tr =
           Some (match pages with
                 | [] => Return tt
                 | _ =>
                   match Handler.JSON_stringify (JSON srv)
                           (VArr (concat pages)) with
                   | Return Body =>
                     putObject srv (POOL_CACHE_BUCKET srv)
                       (POOL_CACHE_KEY srv) Body
                   | Throw e => Throw e
                   end
                 end, tr') ∧
         skipsOf tr' =
           (skipsOf tr ++
            ((fun i : nat => PAGE_SIZE * Z.of_nat i)%Z <$>
               seq 0 (S (length pages))))%list ∧
         putsOf tr' =
           (putsOf tr ++
            match pages with
            | [] => []
            | _ =>
              match Handler.JSON_stringify (JSON srv)
                      (VArr (concat pages)) with
              | Return Body => [Body]
              | Throw _ => []
              end
            end)%list.
Proof.
  intros Hne Hreq Hlast Hfuel.
  destruct (handler_run pages fuel eventId tr Hne Hreq Hlast Hfuel)
    as (tr' & Hrun & Hskips & Hputs).
  exists tr'. split; [exact Hrun|]. split; [exact Hskips | exact Hputs].
Qed.

(** X2. When a query fails after [k] non-empty pages, the job fails with
    that error and puts nothing: pools already fetched are not saved. *)
Theorem job_fails_without_saving (pages : list (list value)) e fuel eventId tr :
  Forall (fun p => p ≠ []) pages →
  (∀ i p, pages !! i = Some p →
     request srv SUBGRAPH_URL PAGE_SIZE (PAGE_SIZE * Z.of_nat i) = Return p) →
  request srv SUBGRAPH_URL PAGE_SIZE (PAGE_SIZE * Z.of_nat (length pages)) =
    Throw e →
  (length pages < fuel)%nat →
  ∃ tr', handler srv fuel eventId tr = Some (Throw e, tr') ∧
         putsOf tr' = putsOf tr ∧
         length (skipsOf tr') = (length (skipsOf tr) + S (length pages))%nat.
Proof.
  intros Hne Hreq Hlast Hfuel. unfold handler.
  set (tr0 := (tr ++ [info _ _])%list).
  destruct (pageLoop_run pages (Throw e) fuel 0 [] tr0)
    as (tr1 & Hrun & Hskips & Hputs); [done|done|done|by right; eexists|done|].
  change (PAGE_SIZE * Z.of_nat 0)%Z with 0%Z in Hrun. rewrite Hrun.
  exists tr1. split; [done|]. split.
  - rewrite Hputs. unfold tr0. rewrite putsOf_app. simpl. by rewrite app_nil_r.
  - rewrite Hskips, length_app, length_fmap, length_seq.
    unfold tr0. rewrite skipsOf_app. simpl. by rewrite app_nil_r.
Qed.

Lemma pageLoop_never_ends :
  (∀ skip, ∃ p, request srv SUBGRAPH_URL PAGE_SIZE skip = Return p ∧ p ≠ []) →
  ∀ fuel skip pools tr, pageLoop srv fuel skip pools tr = None.
Proof.
  intros Hreq. induction fuel as [|fuel IH]; intros skip pools tr; [done|].
  simpl. destruct (Hreq skip) as (p & -> & Hp).
  destruct (decide (0 < length p)%nat) as [_|Hlen]; [apply IH|].
  destruct p; [done | simpl in Hlen; lia].
Qed.

(** X3. The loop has no bound of its own: against a subgraph that answers
    every query with a non-empty page, no number of iterations completes
    the job. *)
Theorem job_never_finishes fuel eventId tr :
  (∀ skip, ∃ p, request srv SUBGRAPH_URL PAGE_SIZE skip = Return p ∧ p ≠ []) →
  handler srv fuel eventId tr = None.
Proof. intros Hreq. unfold handler. by rewrite pageLoop_never_ends. Qed.

Lemma concat_chunks (all : list value) (m j : nat) :
  concat ((fun i : nat => take 1000 (drop (1000 * i) all)) <$> seq j m) =
  take (1000 * m) (drop (1000 * j) all).
Proof.
  revert j. induction m as [|m IH]; intros j; [done|].
  cbn [seq fmap list_fmap concat]. rewrite IH.
  replace (1000 * S m)%nat with (1000 + 1000 * m)%nat by lia.
  replace (1000 * S j)%nat with (1000 * j + 1000)%nat by lia.
  rewrite <- drop_drop. apply take_take_drop.
Qed.

(** X4. Against a subgraph that answers [first]/[skip] from one fixed,
    non-empty list, the job puts exactly one object, the serialisation of
    the whole list in its order, after [k + 1] queries, [k] being the least
    number of pages of 1000 that hold the list; a list of exactly 1000 pools
    takes two queries. (Should serialising the list throw, the job fails
    with that error instead of putting.) *)
Theorem job_caches_whole_list (all : list value) (k : nat) fuel eventId tr :
  (∀ skip, request srv SUBGRAPH_URL PAGE_SIZE skip =
             servedFrom all SUBGRAPH_URL PAGE_SIZE skip) →
  all ≠ [] →
  (length all ≤ 1000 * k)%nat → (1000 * (k - 1) < length all)%nat →
  (k < fuel)%nat →
  ∃ tr', handler srv fuel eventId tr =
           Some (match Handler.JSON_stringify (JSON srv) (VArr all) with
                 | Return Body =>
                   putObject srv (POOL_CACHE_BUCKET srv) (POOL_CACHE_KEY srv)
                     Body
                 | Throw e => Throw e
                 end, tr') ∧
         skipsOf tr' =
           (skipsOf tr ++
            ((fun i : nat => PAGE_SIZE * Z.of_nat i)%Z <$> seq 0 (S k)))%list ∧
         putsOf tr' =
           (putsOf tr ++
            match Handler.JSON_stringify (JSON srv) (VArr all) with
            | Return Body => [Body]
            | Throw _ => []
            end)%list.
Proof.
  intros Hsrv Hall Hk Hmin Hfuel.
  set (pages := (fun i : nat => take 1000 (drop (1000 * i) all)) <$> seq 0 k).
  assert (Hlen : length pages = k) by (unfold pages; by rewrite length_fmap, length_seq).
  assert (Hto : ∀ i : nat, Z.to_nat (PAGE_SIZE * Z.of_nat i) = (1000 * i)%nat)
    by (intros i; unfold PAGE_SIZE; lia).
  assert (Hconcat : concat pages = all).
  { unfold pages. rewrite concat_chunks.
    change (drop (1000 * 0) all) with all. by apply take_ge. }
  assert (Hk0 : (0 < k)%nat) by (destruct all; [done | simpl in Hk; lia]).
  destruct (handler_run pages fuel eventId tr)
    as (tr' & Hrun & Hskips & Hputs).
  - unfold pages. apply Forall_fmap, Forall_forall. intros i Hi%elem_of_seq.
    unfold compose. intros Hnil. apply (f_equal length) in Hnil.
    rewrite length_take, length_drop in Hnil.
    change (length (@nil value)) with 0%nat in Hnil. lia.
  - intros i p Hp. unfold pages in Hp. rewrite list_lookup_fmap in Hp.
    destruct (seq 0 k !! i) as [i'|] eqn:Hi; [|done].
    apply lookup_seq in Hi as [-> _]. simpl in Hp. inversion Hp; subst p.
    rewrite Hsrv. unfold servedFrom. by rewrite Hto.
  - rewrite Hsrv, Hlen. unfold servedFrom. rewrite Hto.
    by rewrite drop_ge by lia.
  - lia.
  - rewrite Hconcat, Hlen in *. exists tr'.
    destruct pages as [|p pages']; [simpl in Hlen; lia|]. done.
Qed.

End Facts.

Import JobSamples.

Lemma job_collects_pages_witness :
  ∃ tr', handler twoPools 3 "ev-1" [] =
           Some (Return tt, tr') ∧
         skipsOf tr' = [0; 1000]%Z ∧
         putsOf tr' = [Samples.sampleStringify (VArr [pool1; pool2])].
Proof.
  destruct (job_collects_pages twoPools [[pool1; pool2]] 3 "ev-1" [])
    as (tr' & Hrun & Hskips & Hputs).
  - repeat constructor. discriminate.
  - intros [|i] p Hp; simpl in Hp; [|done]. inversion Hp; subst p. reflexivity.
  - reflexivity.
  - simpl. lia.
  - exists tr'. split; [exact Hrun|]. split; [exact Hskips | exact Hputs].
Defined.

Lemma job_fails_without_saving_witness :
  ∃ tr', handler flaky 3 "ev-1" [] = Some (Throw (Error "timeout"), tr') ∧
         putsOf tr' = [].
Proof.
  destruct (job_fails_without_saving flaky [[pool1]] (Error "timeout") 3
              "ev-1" []) as (tr' & Hrun & Hputs & _).
  - repeat constructor. discriminate.
  - intros [|i] p Hp; simpl in Hp; [|done]. inversion Hp; subst p. reflexivity.
  - reflexivity.
  - simpl. lia.
  - exists tr'. split; [exact Hrun | exact Hputs].
Defined.

Lemma job_never_finishes_witness : handler stuck 50 "ev-1" [] = None.
Proof.
  apply (job_never_finishes stuck 50 "ev-1" []).
  intros skip. exists [pool1]. split; [reflexivity | discriminate].
Defined.

Lemma job_caches_whole_list_witness :
  ∃ tr', handler twoPools 3 "ev-1" [] = Some (Return tt, tr') ∧
         putsOf tr' = [Samples.sampleStringify (VArr [pool1; pool2])].
Proof.
  destruct (job_caches_whole_list twoPools [pool1; pool2] 1 3 "ev-1" [])
    as (tr' & Hrun & _ & Hputs).
  - intros skip. reflexivity.
  - discriminate.
  - simpl length. lia.
  - simpl length. lia.
  - lia.
  - exists tr'. split; [exact Hrun | exact Hputs].
Defined.

End CachePoolsFacts.

(** * Further properties of the route graph *)

Module RouteGraphMore.
Import RouteGraph Vocabulary.

Section Facts.
Variable getPoolAddress : Token -> Token -> Z -> string.
Variable type : string.

Local Abbreviation hopLoop := (hopLoop getPoolAddress type).
Local Abbreviation visitRoute := (visitRoute getPoolAddress type).
Local Abbreviation routeLoop := (routeLoop getPoolAddress type).
Local Abbreviation assemble := (assemble getPoolAddress type).
Local Abbreviation edgeOf := (edgeOf getPoolAddress type).

(** *** Edges, position by position *)

Lemma hopLoop_edgeOf ra rest : ∀ i prev g g',
  hopLoop ra i rest prev g = Return g' →
  ∃ es, edges g' = (edges g ++ es)%list ∧ length es = length rest ∧
        ∀ j pool, rest !! j = Some pool →
          ∃ t t', tokenPath (route ra) !! (i + j)%nat = Some t ∧
                  tokenPath (route ra) !! S (i + j) = Some t' ∧
                  es !! j = Some (edgeOf ra (i + j) pool t t').
Proof.
  induction rest as [|p rest IH]; intros i prev g g' Hrun; simpl in Hrun.
  - inversion Hrun; subst. exists []. rewrite app_nil_r.
    split; [done|]. split; [done|]. intros j pool Hj. by rewrite lookup_nil in Hj.
  - destruct (tokenPath (route ra) !! (i + 1)%nat) as [nextToken|] eqn:Hnext;
      [|done].
    destruct (tokenPath (route ra) !! i) as [tok_i|] eqn:Hi; [|done].
    apply IH in Hrun as (es & Hes & Hlen & Hat). simpl in Hes.
    assert (Hn : edges (visitNext prev nextToken g) = edges g)
      by (unfold visitNext; by case_decide).
    rewrite Hn, <- app_assoc in Hes.
    eexists. split; [exact Hes|]. split; [simpl; by rewrite Hlen|].
    intros [|j] pool Hj; simpl in Hj.
    + inversion Hj; subst pool. exists tok_i, nextToken.
      rewrite Nat.add_0_r. rewrite Nat.add_1_r in Hnext. done.
    + destruct (Hat j pool Hj) as (t & t' & Ht & Ht' & He).
      exists t, t'. replace (i + S j)%nat with (S i + j)%nat by lia. done.
Qed.

Lemma visitRoute_edgeOf ra g g' :
  visitRoute ra g = Return g' →
  ∃ es, edges g' = (edges g ++ es)%list ∧
        length es = length (pools (route ra)) ∧
        ∀ j pool, pools (route ra) !! j = Some pool →
          ∃ t t', tokenPath (route ra) !! j = Some t ∧
                  tokenPath (route ra) !! S j = Some t' ∧
                  es !! j = Some (edgeOf ra j pool t t').
Proof.
  unfold RouteGraph.visitRoute. intros Hrun.
  destruct (tokenPath (route ra) !! 0%nat) as [prev|]; [|done].
  apply hopLoop_edgeOf in Hrun as (es & Hes & Hlen & Hat).
  exists es. split; [|done].
  rewrite Hes. unfold visitFirst. by case_decide.
Qed.

Lemma routeLoop_edgeOf ras : ∀ g g',
  routeLoop ras g = Return g' →
  ∃ es, edges g' = (edges g ++ es)%list ∧
        ∀ k ra i pool, ras !! k = Some ra → pools (route ra) !! i = Some pool →
          ∃ t t', tokenPath (route ra) !! i = Some t ∧
                  tokenPath (route ra) !! S i = Some t' ∧
                  es !! (hopOffset ras k + i)%nat = Some (edgeOf ra i pool t t').
Proof.
  induction ras as [|ra ras IH]; intros g g' Hrun; simpl in Hrun.
  - inversion Hrun; subst. exists []. rewrite app_nil_r.
    split; [done|]. intros k ra i pool Hk. by rewrite lookup_nil in Hk.
  - destruct (visitRoute ra g) as [g1|err] eqn:Hv; [|done].
    apply visitRoute_edgeOf in Hv as (es1 & Hes1 & Hlen1 & Hat1).
    apply IH in Hrun as (es2 & Hes2 & Hat2).
    exists (es1 ++ es2)%list. split; [by rewrite Hes2, Hes1, app_assoc|].
    intros [|k] ra' i pool Hk Hi; simpl in Hk.
    + inversion Hk; subst ra'.
      destruct (Hat1 i pool Hi) as (t & t' & Ht & Ht' & He).
      exists t, t'. split; [done|]. split; [done|].
      change (hopOffset (ra :: ras) 0) with 0%nat. simpl.
      by rewrite lookup_app_l by (by eapply lookup_lt_Some).
    + destruct (Hat2 k ra' i pool Hk Hi) as (t & t' & Ht & Ht' & He).
      exists t, t'. split; [done|]. split; [done|].
      rewrite RouteGraphFacts.hopOffset_cons, <- Hlen1, <- Nat.add_assoc.
      rewrite lookup_app_r by lia.
      by replace (length es1 + (hopOffset ras k + i) - length es1)%nat
        with (hopOffset ras k + i)%nat by lia.
Qed.

(** X5. The edge list keeps the order of the paths and, within a path, of
    its hops: the edge at position [hopOffset routeAmounts k + i] describes
    pool [i] of path [k], from token [i] to token [i + 1] of that path, with
    the pool's address, fee, liquidity, price and tick; so each edge of a
    path starts at the token where the previous one ended. *)
Theorem edges_in_path_order (routeAmounts : list RouteAmount) g :
  assemble routeAmounts = Return g →
  ∀ k ra i pool,
    routeAmounts !! k = Some ra → pools (route ra) !! i = Some pool →
    ∃ t t', tokenPath (route ra) !! i = Some t ∧
            tokenPath (route ra) !! S i = Some t' ∧
            edges g !! (hopOffset routeAmounts k + i)%nat =
              Some (edgeOf ra i pool t t') ∧
            ∀ e', edges g !! (hopOffset routeAmounts k + S i)%nat = Some e' →
                  is_Some (pools (route ra) !! S i) → inId e' = address t'.
Proof.
  intros Hrun k ra i pool Hk Hi.
  apply routeLoop_edgeOf in Hrun as (es & Hes & Hat). simpl in Hes. subst es.
  destruct (Hat k ra i pool Hk Hi) as (t & t' & Ht & Ht' & He).
  exists t, t'. split; [done|]. split; [done|]. split; [done|].
  intros e' He' [pool' Hi'].
  destruct (Hat k ra (S i) pool' Hk Hi') as (u & u' & Hu & Hu' & Hnext).
  rewrite Hnext in He'. inversion He'; subst e'. simpl. congruence.
Qed.

(** *** Edges join recorded tokens *)

Lemma visitNext_tokenSet prev next g :
  tokenSet (visitNext prev next g) = {[address next]} ∪ tokenSet g.
Proof. unfold visitNext. case_decide; simpl; set_solver. Qed.

Lemma visitFirst_tokenSet t g :
  tokenSet (visitFirst t g) = {[address t]} ∪ tokenSet g.
Proof. unfold visitFirst. case_decide; simpl; set_solver. Qed.

Lemma hopLoop_closed ra rest : ∀ i prev g g',
  hopLoop ra i rest prev g = Return g' →
  closed g →
  (∀ t, tokenPath (route ra) !! i = Some t → address t ∈ tokenSet g) →
  closed g'.
Proof.
  induction rest as [|p rest IH]; intros i prev g g' Hrun Hcl Hat;
    simpl in Hrun.
  - by inversion Hrun; subst.
  - destruct (tokenPath (route ra) !! (i + 1)%nat) as [nextToken|] eqn:Hnext;
      [|done].
    destruct (tokenPath (route ra) !! i) as [tok_i|] eqn:Hi; [|done].
    eapply IH; [exact Hrun| |].
    + intros e He. simpl in He. apply elem_of_app in He as [He|He]; simpl.
      * assert (Hsame : edges (visitNext prev nextToken g) = edges g)
          by (unfold visitNext; by case_decide).
        rewrite Hsame in He. destruct (Hcl e He) as [Hin Hout].
        rewrite visitNext_tokenSet. set_solver.
      * apply list_elem_of_singleton in He as ->. simpl.
        rewrite visitNext_tokenSet. specialize (Hat tok_i eq_refl). set_solver.
    + intros t Ht. simpl. rewrite Nat.add_1_r in Hnext.
      rewrite visitNext_tokenSet. assert (t = nextToken) as -> by congruence.
      set_solver.
Qed.

Lemma visitRoute_closed ra g g' :
  visitRoute ra g = Return g' → closed g → closed g'.
Proof.
  unfold RouteGraph.visitRoute. intros Hrun Hcl.
  destruct (tokenPath (route ra) !! 0%nat) as [prev|] eqn:H0; [|done].
  eapply hopLoop_closed; [exact Hrun| |].
  - intros e He.
    assert (Hsame : edges (visitFirst prev g) = edges g)
      by (unfold visitFirst; by case_decide).
    rewrite Hsame in He. destruct (Hcl e He).
    rewrite visitFirst_tokenSet. set_solver.
  - intros t Ht. assert (t = prev) as -> by congruence.
    rewrite visitFirst_tokenSet. set_solver.
Qed.

Lemma routeLoop_closed ras : ∀ g g',
  routeLoop ras g = Return g' → closed g → closed g'.
Proof.
  induction ras as [|ra ras IH]; intros g g' Hrun Hcl; simpl in Hrun.
  - by inversion Hrun; subst.
  - destruct (visitRoute ra g) as [g1|e] eqn:Hv; [|done].
    eapply IH; [exact Hrun|]. by eapply visitRoute_closed.
Qed.

Lemma assemble_closed (routeAmounts : list RouteAmount) g :
  assemble routeAmounts = Return g →
  ∀ e, e ∈ edges g →
       inId e ∈ node_id <$> nodes g ∧ outId e ∈ node_id <$> nodes g.
Proof.
  intros Hrun e He.
  pose proof (RouteGraphFacts.routeLoop_inv getPoolAddress type routeAmounts
                emptyGraph g Hrun (RouteGraphFacts.emptyGraph_inv)) as [_ Hset].
  assert (Hcl : closed g).
  { eapply routeLoop_closed; [exact Hrun|]. intros e' He'. simpl in He'.
    by apply elem_of_nil in He'. }
  destruct (Hcl e He) as [Hin Hout]. split; by apply Hset.
Qed.

(** X6. In a returned graph both ends of every edge are ids of nodes of the
    node list: no edge points at a token that was not emitted. *)
Theorem edges_join_nodes (routeAmounts : list RouteAmount) g :
  assemble routeAmounts = Return g →
  ∀ e, e ∈ edges g →
       inId e ∈ node_id <$> nodes g ∧ outId e ∈ node_id <$> nodes g.
Proof. apply assemble_closed. Qed.

(** *** When the assembly fails *)

Lemma hopLoop_returns_inv ra rest : ∀ i prev g g',
  hopLoop ra i rest prev g = Return g' →
  rest = [] ∨ (i + length rest < length (tokenPath (route ra)))%nat.
Proof.
  induction rest as [|p rest IH]; intros i prev g g' Hrun; [by left|].
  right. simpl in Hrun.
  destruct (tokenPath (route ra) !! (i + 1)%nat) as [nextToken|] eqn:Hnext;
    [|done].
  destruct (tokenPath (route ra) !! i) as [tok_i|]; [|done].
  apply lookup_lt_Some in Hnext.
  apply IH in Hrun as [->|Hlt]; simpl; lia.
Qed.

Lemma visitRoute_returns_iff ra g :
  (∃ g', visitRoute ra g = Return g') ↔ enoughTokens ra.
Proof.
  unfold RouteGraph.visitRoute, enoughTokens. split.
  - intros [g' Hrun].
    destruct (tokenPath (route ra) !! 0%nat) as [prev|] eqn:H0; [|done].
    apply lookup_lt_Some in H0.
    apply hopLoop_returns_inv in Hrun as [->|Hlt]; simpl in *; lia.
  - intros Hlt.
    destruct (lookup_lt_is_Some_2 (tokenPath (route ra)) 0%nat) as [t0 ->];
      [lia|].
    apply RouteGraphFacts.hopLoop_returns. lia.
Qed.

Lemma hopLoop_throws ra rest : ∀ i prev g e,
  hopLoop ra i rest prev g = Throw e → ∃ m, e = TypeError m.
Proof.
  induction rest as [|p rest IH]; intros i prev g e Hrun; simpl in Hrun;
    [done|].
  destruct (tokenPath (route ra) !! (i + 1)%nat); [|inversion Hrun; eauto].
  destruct (tokenPath (route ra) !! i); [|inversion Hrun; eauto].
  by eapply IH.
Qed.

Lemma routeLoop_throws ras : ∀ g e,
  routeLoop ras g = Throw e → ∃ m, e = TypeError m.
Proof.
  induction ras as [|ra ras IH]; intros g e Hrun; simpl in Hrun; [done|].
  destruct (visitRoute ra g) as [g1|e1] eqn:Hv; simpl in Hrun.
  - by eapply IH.
  - inversion Hrun; subst e1. unfold RouteGraph.visitRoute in Hv.
    destruct (tokenPath (route ra) !! 0%nat); [|inversion Hv; eauto].
    by eapply hopLoop_throws.
Qed.

Lemma routeLoop_returns_iff ras : ∀ g,
  (∃ g', routeLoop ras g = Return g') ↔ Forall enoughTokens ras.
Proof.
  induction ras as [|ra ras IH]; intros g; simpl.
  - split; [by constructor | by eexists].
  - rewrite Forall_cons, <- (visitRoute_returns_iff ra g). split.
    + intros [g' Hrun]. destruct (visitRoute ra g) as [g1|e]; [|done].
      split; [by eexists|]. apply (IH g1). by eexists.
    + intros [[g1 ->] Hras]. simpl. by apply IH.
Qed.

(** X7. The assembly returns a graph exactly when every path has more
    tokens than pools (a token at both ends of each hop, and a head token
    even without hops); on any other input it throws a [TypeError], so no
    partial graph is ever returned. *)
Theorem assembly_fails_on_short_path (routeAmounts : list RouteAmount) :
  ((∃ g, assemble routeAmounts = Return g) ↔
     Forall enoughTokens routeAmounts) ∧
  (¬ Forall enoughTokens routeAmounts →
     ∃ m, assemble routeAmounts = Throw (TypeError m)).
Proof.
  split; [apply routeLoop_returns_iff|].
  intros Hshort. unfold RouteGraph.assemble.
  destruct (routeLoop routeAmounts emptyGraph) as [g|e] eqn:Hrun.
  - destruct Hshort. apply (routeLoop_returns_iff routeAmounts emptyGraph).
    by eexists.
  - apply routeLoop_throws in Hrun as [m ->]. by eexists.
Qed.

(** *** Nodes in first-seen order *)

Lemma firstSeen_app seen l1 l2 :
  firstSeen seen (l1 ++ l2) =
  (firstSeen seen l1 ++ firstSeen (list_to_set l1 ∪ seen) l2)%list.
Proof.
  revert seen. induction l1 as [|a l1 IH]; intros seen; simpl.
  - f_equal. set_solver.
  - case_decide as Ha.
    + rewrite IH. do 2 f_equal. set_solver.
    + simpl. rewrite IH. do 3 f_equal. set_solver.
Qed.

Lemma elem_of_firstSeen seen l a :
  a ∈ firstSeen seen l ↔ a ∈ l ∧ a ∉ seen.
Proof.
  revert seen. induction l as [|b l IH]; intros seen; simpl.
  - set_solver.
  - case_decide as Hb.
    + rewrite IH. set_solver.
    + rewrite !elem_of_cons, IH, not_elem_of_union, elem_of_singleton.
      destruct (decide (a = b)) as [->|Hne]; tauto.
Qed.

Lemma extends_trans g1 g2 g3 l1 l2 :
  extends g1 g2 l1 → extends g2 g3 l2 → extends g1 g3 (l1 ++ l2).
Proof.
  intros [Hn1 Hs1] [Hn2 Hs2]. split.
  - rewrite Hn2, Hn1, Hs1, firstSeen_app. by rewrite <- app_assoc.
  - rewrite Hs2, Hs1. set_solver.
Qed.

Lemma visitNext_extends prev next g :
  extends g (visitNext prev next g) [address next].
Proof.
  split; [|rewrite visitNext_tokenSet; set_solver].
  unfold visitNext. simpl. case_decide; simpl; [by rewrite app_nil_r|].
  by rewrite fmap_app.
Qed.

Lemma visitFirst_extends t g : extends g (visitFirst t g) [address t].
Proof.
  split; [|rewrite visitFirst_tokenSet; set_solver].
  unfold visitFirst. simpl. case_decide; simpl; [by rewrite app_nil_r|].
  by rewrite fmap_app.
Qed.

Lemma pushEdge_extends e g1 g2 l : extends g1 g2 l → extends g1 (pushEdge e g2) l.
Proof. by intros [? ?]. Qed.

Lemma hopLoop_extends ra rest : ∀ i prev g g',
  hopLoop ra i rest prev g = Return g' →
  extends g g'
    (address <$> take (length rest) (drop (S i) (tokenPath (route ra)))).
Proof.
  induction rest as [|p rest IH]; intros i prev g g' Hrun; simpl in Hrun.
  - inversion Hrun; subst. split; simpl; [by rewrite app_nil_r | set_solver].
  - destruct (tokenPath (route ra) !! (i + 1)%nat) as [nextToken|] eqn:Hnext;
      [|done].
    destruct (tokenPath (route ra) !! i) as [tok_i|]; [|done].
    rewrite Nat.add_1_r in Hnext. apply IH in Hrun.
    rewrite (drop_S _ _ _ Hnext). simpl.
    eapply (extends_trans _ _ _ [address nextToken]); [|exact Hrun].
    apply pushEdge_extends, visitNext_extends.
Qed.

Lemma visitRoute_extends ra g g' :
  visitRoute ra g = Return g' → extends g g' (visited ra).
Proof.
  unfold RouteGraph.visitRoute, visited. intros Hrun.
  destruct (tokenPath (route ra)) as [|t0 tl] eqn:Htp; [done|].
  simpl in Hrun. apply hopLoop_extends in Hrun. rewrite Htp in Hrun. simpl in *.
  rewrite drop_0 in Hrun.
  apply (extends_trans g (visitFirst t0 g) g' [address t0]); [|done].
  apply visitFirst_extends.
Qed.

Lemma routeLoop_extends ras : ∀ g g',
  routeLoop ras g = Return g' → extends g g' (concat (visited <$> ras)).
Proof.
  induction ras as [|ra ras IH]; intros g g' Hrun; simpl in Hrun.
  - inversion Hrun; subst. split; simpl; [by rewrite app_nil_r | set_solver].
  - destruct (visitRoute ra g) as [g1|e] eqn:Hv; [|done]. simpl.
    eapply extends_trans; [by apply visitRoute_extends | by apply IH].
Qed.

(** X8. The ids of the node list are the token addresses on the paths, each
    once, in the order in which they are first met when the paths are read
    one after the other, each from its head token along its hops. *)
Theorem nodes_in_first_seen_order (routeAmounts : list RouteAmount) g :
  assemble routeAmounts = Return g →
  node_id <$> nodes g = firstSeen ∅ (concat (visited <$> routeAmounts)) ∧
  ∀ a, a ∈ node_id <$> nodes g ↔ a ∈ concat (visited <$> routeAmounts).
Proof.
  intros Hrun. apply routeLoop_extends in Hrun as [Hids _]. simpl in Hids.
  split; [done|]. intros a. rewrite Hids, elem_of_firstSeen. set_solver.
Qed.

(** *** The two trade directions *)

Lemma edgeAmountIn_swap ra i :
  type ≠ "exactIn" →
  edgeAmountIn type ra i = edgeAmountIn "exactIn" (swapAmounts ra) i.
Proof. intros Hty. unfold edgeAmountIn. by repeat case_decide. Qed.

Lemma edgeAmountOut_swap ra i :
  type ≠ "exactIn" →
  edgeAmountOut type ra i = edgeAmountOut "exactIn" (swapAmounts ra) i.
Proof. intros Hty. unfold edgeAmountOut. simpl. by repeat case_decide. Qed.

Lemma hopLoop_swap ra rest : type ≠ "exactIn" → ∀ i prev g,
  hopLoop ra i rest prev g =
  RouteGraph.hopLoop getPoolAddress "exactIn" (swapAmounts ra) i rest prev g.
Proof.
  intros Hty. induction rest as [|p rest IH]; intros i prev g; simpl; [done|].
  destruct (tokenPath (route ra) !! (i + 1)%nat) as [nextToken|]; [|done].
  destruct (tokenPath (route ra) !! i) as [tok_i|]; [|done].
  rewrite IH. by rewrite edgeAmountIn_swap, edgeAmountOut_swap.
Qed.

Lemma routeLoop_swap ras : type ≠ "exactIn" → ∀ g,
  routeLoop ras g =
  RouteGraph.routeLoop getPoolAddress "exactIn" (swapAmounts <$> ras) g.
Proof.
  intros Hty. induction ras as [|ra ras IH]; intros g; simpl; [done|].
  unfold RouteGraph.visitRoute. simpl.
  destruct (tokenPath (route ra) !! 0%nat) as [prev|]; [|done].
  rewrite hopLoop_swap by done.
  destruct (RouteGraph.hopLoop _ _ _ _ _ _ _) as [g1|e]; simpl; [apply IH|done].
Qed.

(** X9. Any trade type other than ['exactIn'] is handled as exact output,
    and exact output is exact input with the amount and the quote of every
    path exchanged: the graphs are the same, node for node and edge for
    edge. *)
Theorem exact_output_is_swapped_exact_input (routeAmounts : list RouteAmount) :
  type ≠ "exactIn" →
  assemble routeAmounts =
  RouteGraph.assemble getPoolAddress "exactIn" (swapAmounts <$> routeAmounts).
Proof. intros Hty. by apply routeLoop_swap. Qed.

End Facts.

Import Samples.

Lemma edges_in_path_order_witness :
  ∃ g e, assemble samplePoolAddress "exactIn" [pathABC; pathDBE] = Return g ∧
         edges g !! 2%nat = Some e ∧
         edge_id e = "0xD-0xB-3000" ∧ inId e = "0xD" ∧ outId e = "0xB".
Proof.
  destruct (RouteGraphFacts.routeLoop_returns samplePoolAddress "exactIn"
              [pathABC; pathDBE] emptyGraph) as [g Hg];
    [repeat constructor|].
  destruct (edges_in_path_order samplePoolAddress "exactIn"
              [pathABC; pathDBE] g Hg 1%nat pathDBE 0%nat (mkPool tokD tokB)
              eq_refl eq_refl) as (t & t' & Ht & Ht' & He & _).
  simpl in Ht, Ht'. inversion Ht; subst t. inversion Ht'; subst t'.
  eexists g, _. split; [exact Hg|]. split; [exact He|]. vm_compute. done.
Defined.

Lemma edges_join_nodes_witness :
  ∃ g, assemble samplePoolAddress "exactIn" [pathABC; pathDBE] = Return g ∧
       ∀ e, e ∈ edges g → inId e ∈ node_id <$> nodes g.
Proof.
  destruct (RouteGraphFacts.routeLoop_returns samplePoolAddress "exactIn"
              [pathABC; pathDBE] emptyGraph) as [g Hg];
    [repeat constructor|].
  exists g. split; [exact Hg|]. intros e He.
  exact (proj1 (edges_join_nodes samplePoolAddress "exactIn"
                  [pathABC; pathDBE] g Hg e He)).
Defined.

Lemma assembly_fails_on_short_path_witness :
  (∃ g, assemble samplePoolAddress "exactIn" [pathABC] = Return g) ∧
  (∃ m, assemble samplePoolAddress "exactIn"
          [pathABC; QuoteSamples.shortPath] = Throw (TypeError m)).
Proof.
  split.
  - apply (proj1 (assembly_fails_on_short_path samplePoolAddress "exactIn"
                    [pathABC])).
    repeat constructor.
  - apply (proj2 (assembly_fails_on_short_path samplePoolAddress "exactIn"
                    [pathABC; QuoteSamples.shortPath])).
    intros Hall. apply Forall_cons in Hall as [_ Hall].
    apply Forall_cons in Hall as [Hshort _].
    unfold enoughTokens in Hshort. simpl in Hshort. lia.
Defined.

Lemma nodes_in_first_seen_order_witness :
  ∃ g, assemble samplePoolAddress "exactIn" [pathABC; pathDBE] = Return g ∧
       node_id <$> nodes g = ["0xA"; "0xB"; "0xC"; "0xD"; "0xE"].
Proof.
  destruct (RouteGraphFacts.routeLoop_returns samplePoolAddress "exactIn"
              [pathABC; pathDBE] emptyGraph) as [g Hg];
    [repeat constructor|].
  exists g. split; [exact Hg|].
  rewrite (proj1 (nodes_in_first_seen_order samplePoolAddress "exactIn"
                    [pathABC; pathDBE] g Hg)).
  vm_compute. reflexivity.
Defined.

Lemma exact_output_is_swapped_exact_input_witness :
  assemble samplePoolAddress "exactOut" [pathABC] =
  assemble samplePoolAddress "exactIn" [swapAmounts pathABC].
Proof.
  apply (exact_output_is_swapped_exact_input samplePoolAddress "exactOut"
           [pathABC]).
  discriminate.
Defined.

End RouteGraphMore.

(** * Properties of the quote endpoint *)

Module QuoteHandlerFacts.
Import RouteGraph QuoteHandler Vocabulary.

Ltac run_quote :=
  cbv [handleRequest tokenStringToCurrency mbind Handler.M_bind mret
       Handler.M_ret Handler.await Handler.log_info];
  cbv beta iota.

Section Facts.
Variables Amount SwapConfig MethodParameters : Type.
Variable quotientOf : Amount -> Z.
Variable toExact : Amount -> string.
Variable fromRawAmount : Currency -> string -> outcome Amount.
Variable swapConfigOf : string -> string -> string -> outcome SwapConfig.
Variable equals : Currency -> Currency -> bool.
Variable wrapped : Currency -> outcome Token.
Variable routeAmountsToString : list RouteAmount -> string.

Local Abbreviation RequestInjected :=
  (RequestInjected Amount SwapConfig MethodParameters).
Local Abbreviation tokenStringToCurrency := (tokenStringToCurrency wrapped).
Local Abbreviation handleRequest :=
  (handleRequest quotientOf toExact fromRawAmount swapConfigOf equals wrapped
     routeAmountsToString).
Local Abbreviation quoteResponseOf :=
  (quoteResponseOf quotientOf toExact routeAmountsToString).

(** The tokens of a request, as [handleRequest] resolves them. *)
Local Abbreviation resolve q ri ci :=
  (tokenStringToCurrency (tokenListProvider ci) (tokenProvider ri)
     (tokenInAddress q) (tokenOutAddress q)
     (tokenInChainId q) (tokenOutChainId q) (log ri)).

(** *** Resolving the two tokens *)

Lemma fetch_missing (x : string) (o : option Currency) :
  (if negb (bool_decide (is_Some o)) && isAddress x then [x] else []) =
  match o with
  | None => if isAddress x then [x] else []
  | Some _ => []
  end.
Proof.
  destruct o as [c|].
  - by rewrite bool_decide_eq_true_2 by eauto.
  - by rewrite bool_decide_eq_false_2 by (by intros [? ?]).
Qed.

(** X10. When the token list knows both tokens, the on-chain token provider
    is not consulted: whatever it would do, the two currencies of the list
    are returned and a single [info] record is written. *)
Theorem list_tokens_skip_chain_lookup tlp tp tokenInRaw tokenOutRaw
    tokenInChainId tokenOutChainId l tr cIn cOut tIn tOut :
  tryTokenList tlp tokenInRaw tokenInChainId = Return (Some cIn) →
  tryTokenList tlp tokenOutRaw tokenOutChainId = Return (Some cOut) →
  wrapped cIn = Return tIn → wrapped cOut = Return tOut →
  tokenStringToCurrency tlp tp tokenInRaw tokenOutRaw tokenInChainId
    tokenOutChainId l tr =
    (Return (Some cIn, Some cOut),
     (tr ++ [ {| Handler.record_logger := l;
                 Handler.record_level := Handler.INFO;
                 Handler.record_err := None;
                 Handler.record_msg :=
                   "Got both input tokens from token list" |} ])%list).
Proof.
  intros Hin Hout Hwin Hwout. run_quote.
  by rewrite Hin, Hout, Hwin, Hwout.
Qed.

(** X11. When the token list misses a token, the list the token provider is
    asked for holds exactly the missing raw strings that have the shape of
    an address, the input's before the output's (twice the same string when
    both are missing and equal), and the run depends on the provider only
    through its answer to that list; a currency the list did resolve is
    kept, and a missing one is whatever the provider's answer holds under
    the raw string, address-shaped or not. *)
Theorem chain_lookup_fills_gaps tlp tp tokenInRaw tokenOutRaw
    tokenInChainId tokenOutChainId l tr ci co toFetch acc tIn tOut :
  tryTokenList tlp tokenInRaw tokenInChainId = Return ci →
  tryTokenList tlp tokenOutRaw tokenOutChainId = Return co →
  ci = None ∨ co = None →
  toFetch =
    (match ci with
     | None => if isAddress tokenInRaw then [tokenInRaw] else []
     | Some _ => []
     end ++
     match co with
     | None => if isAddress tokenOutRaw then [tokenOutRaw] else []
     | Some _ => []
     end)%list →
  getTokens tp toFetch = Return acc →
  accessor_getTokenByAddress acc tokenInRaw = Return tIn →
  accessor_getTokenByAddress acc tokenOutRaw = Return tOut →
  tokenStringToCurrency tlp tp tokenInRaw tokenOutRaw tokenInChainId
    tokenOutChainId l tr =
    (Return (match ci with Some _ => ci | None => Tok <$> tIn end,
             match co with Some _ => co | None => Tok <$> tOut end),
     (tr ++ [ {| Handler.record_logger := l;
                 Handler.record_level := Handler.INFO;
                 Handler.record_err := None;
                 Handler.record_msg :=
                   "Getting tokens " ++ arrayText toFetch ++
                   " from chain" |} ])%list) ∧
  tokensToFetch ci co tokenInRaw tokenOutRaw = toFetch.
Proof.
  intros Hin Hout Hgap HtoFetch Hget HtIn HtOut.
  assert (Hfetch : tokensToFetch ci co tokenInRaw tokenOutRaw = toFetch)
    by (unfold tokensToFetch; by rewrite !fetch_missing).
  split; [|exact Hfetch].
  run_quote. rewrite Hin, Hout.
  destruct ci as [cIn|], co as [cOut|];
    [by destruct Hgap|..]; cbv beta iota; rewrite Hfetch, Hget; cbv beta iota;
    rewrite ?HtIn, ?HtOut; reflexivity.
Qed.

(** *** Answering a quote request *)

Ltac run_quote_with Hres :=
  cbv [QuoteHandler.handleRequest mbind Handler.M_bind]; cbv beta iota;
  rewrite Hres; cbv beta iota.

(** X12. The tokens are checked before anything else: an unresolved input
    token is answered with 400 TOKEN_IN_INVALID (even when the output token
    is unresolved too), an unresolved output token with 400
    TOKEN_OUT_INVALID, two equal currencies with 400 TOKEN_IN_OUT_SAME. The
    trade type, the amount, the swap parameters and the router play no part
    in these answers. *)
Theorem token_errors_first q (ri : RequestInjected) ci tr oIn oOut tr1 :
  resolve q ri ci tr = (Return (oIn, oOut), tr1) →
  (oIn = None →
     handleRequest q ri ci tr =
       (Return (inr {| error_statusCode := 400;
                       errorCode := "TOKEN_IN_INVALID";
                       detail := Some ("Could not find token with address " ++
                                       Joi.dquote ++ tokenInAddress q ++
                                       Joi.dquote) |}), tr1)) ∧
  (is_Some oIn → oOut = None →
     handleRequest q ri ci tr =
       (Return (inr {| error_statusCode := 400;
                       errorCode := "TOKEN_OUT_INVALID";
                       detail := Some ("Could not find token with address " ++
                                       Joi.dquote ++ tokenOutAddress q ++
                                       Joi.dquote) |}), tr1)) ∧
  (∀ cIn cOut, oIn = Some cIn → oOut = Some cOut → equals cIn cOut = true →
     handleRequest q ri ci tr =
       (Return (inr {| error_statusCode := 400;
                       errorCode := "TOKEN_IN_OUT_SAME";
                       detail := Some "tokenIn and tokenOut must be different" |}),
        tr1)).
Proof.
  intros Hres. split; [|split].
  - intros ->. by run_quote_with Hres.
  - intros [cIn ->] ->. by run_quote_with Hres.
  - intros cIn cOut -> -> Heq. run_quote_with Hres. by rewrite Heq.
Qed.

(** X13. A trade type other than ['exactIn'] and ['exactOut'] is not
    answered with an error response: once both tokens are resolved and
    differ and the swap parameters are built, the handler throws
    [Error('')], without consulting the router. *)
Theorem unknown_trade_type_throws q (ri : RequestInjected) ci tr cIn cOut tr1 sp :
  resolve q ri ci tr = (Return (Some cIn, Some cOut), tr1) →
  equals cIn cOut = false →
  swapParamsOf swapConfigOf q = Return sp →
  tradeType q ≠ "exactIn" → tradeType q ≠ "exactOut" →
  handleRequest q ri ci tr = (Throw (Error ""), tr1).
Proof.
  intros Hres Heq Hsp Hin Hout. run_quote_with Hres. rewrite Heq.
  cbv [Handler.await]. rewrite Hsp. cbv beta iota.
  rewrite !bool_decide_eq_false_2 by done. done.
Qed.

Lemma handleRequest_routed q (ri : RequestInjected) ci tr cIn cOut tr1 sp r :
  resolve q ri ci tr = (Return (Some cIn, Some cOut), tr1) →
  equals cIn cOut = false →
  swapParamsOf swapConfigOf q = Return sp →
  routed fromRawAmount q (router ri) cIn cOut sp r →
  ∃ tr2,
    handleRequest q ri ci tr =
      (match r with
       | None =>
         Return (inr {| error_statusCode := 404; errorCode := "NO_ROUTE";
                        detail := Some "No route found" |})
       | Some swapRoute =>
         match assemble (poolProvider ri) (tradeType q)
                 (routeAmounts swapRoute) with
         | Return g =>
           Return (inl {| statusCode := 200;
                          body := quoteResponseOf swapRoute g (quoteId ri) |})
         | Throw e => Throw e
         end
       end, tr2).
Proof.
  intros Hres Heq Hsp Hrouted. run_quote_with Hres. rewrite Heq.
  cbv [Handler.await]. rewrite Hsp. cbv beta iota.
  destruct Hrouted as [[Hty (a & Ha & Hr)]|[Hty (a & Ha & Hr)]].
  - rewrite (bool_decide_eq_true_2 _ Hty). rewrite Ha.
    cbv [Handler.log_info mbind Handler.M_bind mret Handler.M_ret].
    cbv beta iota. rewrite Hr. cbv beta iota.
    destruct r as [sr|]; [|by eexists].
    destruct (assemble _ _ _); by eexists.
  - rewrite bool_decide_eq_false_2 by (rewrite Hty; discriminate).
    rewrite (bool_decide_eq_true_2 _ Hty). rewrite Ha.
    cbv [Handler.log_info mbind Handler.M_bind mret Handler.M_ret].
    cbv beta iota. rewrite Hr. cbv beta iota.
    destruct r as [sr|]; [|by eexists].
    destruct (assemble _ _ _); by eexists.
Qed.

(** X14. When the router, asked in the direction the request names, finds
    no route, the answer is 404 NO_ROUTE. *)
Theorem no_route_is_404 q (ri : RequestInjected) ci tr cIn cOut tr1 sp :
  resolve q ri ci tr = (Return (Some cIn, Some cOut), tr1) →
  equals cIn cOut = false →
  swapParamsOf swapConfigOf q = Return sp →
  routed fromRawAmount q (router ri) cIn cOut sp None →
  ∃ tr2,
    handleRequest q ri ci tr =
      (Return (inr {| error_statusCode := 404; errorCode := "NO_ROUTE";
                      detail := Some "No route found" |}), tr2).
Proof. intros Hres Heq Hsp Hr. by eapply handleRequest_routed in Hr. Qed.

(** X15. When the router finds a route all of whose paths have a token at
    both ends of each hop, the answer is 200 and its body carries a route
    graph in which no node id occurs twice, there is one edge per hop of
    the route, and both ends of every edge are node ids; the quote and the
    quote id are those of the route and of the request. When some path is
    short of tokens the handler throws a [TypeError] instead. *)
Theorem quote_route_graph q (ri : RequestInjected) ci tr cIn cOut tr1 sp swapRoute :
  resolve q ri ci tr = (Return (Some cIn, Some cOut), tr1) →
  equals cIn cOut = false →
  swapParamsOf swapConfigOf q = Return sp →
  routed fromRawAmount q (router ri) cIn cOut sp (Some swapRoute) →
  (Forall enoughTokens (routeAmounts swapRoute) →
     ∃ tr2 b,
       handleRequest q ri ci tr =
         (Return (inl {| statusCode := 200; body := b |}), tr2) ∧
       NoDup (node_id <$> routeNodes b) ∧
       length (routeEdges b) =
         hopOffset (routeAmounts swapRoute) (length (routeAmounts swapRoute)) ∧
       (∀ e, e ∈ routeEdges b →
             inId e ∈ node_id <$> routeNodes b ∧
             outId e ∈ node_id <$> routeNodes b) ∧
       res_quote b = toString (quotientOf (swap_quote swapRoute)) ∧
       res_quoteId b = quoteId ri) ∧
  (¬ Forall enoughTokens (routeAmounts swapRoute) →
     ∃ tr2 m, handleRequest q ri ci tr = (Throw (TypeError m), tr2)).
Proof.
  intros Hres Heq Hsp Hr.
  destruct (handleRequest_routed _ _ _ _ _ _ _ _ _ Hres Heq Hsp Hr)
    as (tr2 & Hrun).
  split.
  - intros Hok.
    apply (RouteGraphMore.routeLoop_returns_iff (poolProvider ri) (tradeType q)
             (routeAmounts swapRoute) emptyGraph) in Hok as [g Hg].
    change (assemble (poolProvider ri) (tradeType q) (routeAmounts swapRoute) =
            Return g) in Hg.
    rewrite Hg in Hrun.
    exists tr2, (quoteResponseOf swapRoute g (quoteId ri)).
    split; [exact Hrun|]. simpl.
    pose proof (RouteGraphFacts.routeLoop_inv _ _ _ _ _ Hg
                  RouteGraphFacts.emptyGraph_inv) as [Hnd _].
    destruct (RouteGraphFacts.routeLoop_edges _ _ _ _ _ Hg)
      as (es & Hes & Hlen & _).
    simpl in Hes. subst es.
    split; [done|]. split; [done|]. split; [|done].
    by apply (RouteGraphMore.assemble_closed _ _ _ _ Hg).
  - intros Hbad.
    destruct (assemble (poolProvider ri) (tradeType q) (routeAmounts swapRoute))
      as [g|e] eqn:Hg.
    + destruct Hbad.
      apply (RouteGraphMore.routeLoop_returns_iff (poolProvider ri)
               (tradeType q) (routeAmounts swapRoute) emptyGraph).
      by exists g.
    + apply RouteGraphMore.routeLoop_throws in Hg as [m ->]. by exists tr2, m.
Qed.

(** X16. Whatever the collaborators do, a result that [handleRequest]
    returns is either a 200 or one of four error answers, each with a
    detail: TOKEN_IN_INVALID, TOKEN_OUT_INVALID and TOKEN_IN_OUT_SAME with
    400, NO_ROUTE with 404. The error status codes are among those the
    [ErrorResponse] type admits. *)
Theorem quote_status_codes q (ri : RequestInjected) ci tr r tr' :
  handleRequest q ri ci tr = (Return r, tr') →
  match r with
  | inl resp => statusCode resp = 200%Z
  | inr err =>
    (errorCode err, error_statusCode err) ∈ quoteErrors ∧
    is_Some (detail err) ∧
    error_statusCode err ∈ Handler.errorStatusCodes
  end.
Proof.
  unfold quoteErrors, Handler.errorStatusCodes.
  cbv [QuoteHandler.handleRequest mbind Handler.M_bind mret Handler.M_ret
       Handler.await Handler.log_info]; cbv beta iota.
  intros Hrun.
  repeat (match type of Hrun with
          | context [match ?x with _ => _ end] => destruct x eqn:?
          | context [if ?x then _ else _] => destruct x eqn:?
          end; try discriminate);
    inversion Hrun; subst; simpl;
    try done; (split; [set_solver | split; [by eexists | set_solver]]).
Qed.

End Facts.

Import Samples QuoteSamples.

(** AAA is on the list and ETH is the native currency: the unreachable token
    provider does no harm. *)
Lemma list_tokens_skip_chain_lookup_witness :
  (tokenStringToCurrency wrappedOf tokenList unreachable "AAA" "ETH" 1 1
     refinedLogger []).1 = Return (Some (Tok tokA), Some (Ether 1)).
Proof.
  rewrite (list_tokens_skip_chain_lookup wrappedOf tokenList unreachable
             "AAA" "ETH" 1 1 refinedLogger [] (Tok tokA) (Ether 1) tokA weth
             eq_refl eq_refl eq_refl eq_refl).
  reflexivity.
Defined.

(** The address of C is not on the list and is fetched from the chain. *)
Lemma chain_lookup_fills_gaps_witness :
  (tokenStringToCurrency wrappedOf tokenList chainTokens "AAA" addressC 1 1
     refinedLogger []).1 = Return (Some (Tok tokA), Some (Tok chainC)) ∧
  tokensToFetch (Some (Tok tokA)) None "AAA" addressC = [addressC].
Proof.
  destruct (chain_lookup_fills_gaps wrappedOf tokenList chainTokens
              "AAA" addressC 1 1 refinedLogger [] (Some (Tok tokA)) None
              [addressC]
              {| accessor_getTokenByAddress := fun a =>
                   Return (if decide (a = addressC) then Some chainC
                           else None) |}
              None (Some chainC)
              eq_refl eq_refl (or_intror eq_refl) eq_refl eq_refl eq_refl
              eq_refl)
    as [Hrun Hfetch].
  rewrite Hrun, Hfetch. split; reflexivity.
Defined.

Lemma token_errors_first_witness :
  (sampleHandleRequest (query "ZZZ" "YYY" "no such type")
     (requestDeps chainTokens) containerDeps []).1 =
    Return (inr {| error_statusCode := 400;
                   errorCode := "TOKEN_IN_INVALID";
                   detail := Some ("Could not find token with address " ++
                                   Joi.dquote ++ "ZZZ" ++ Joi.dquote) |}).
Proof.
  destruct (token_errors_first Z unit unit (fun a : Z => a) toString fromRaw
              swapConfig sameCurrency wrappedOf noRouteString
              (query "ZZZ" "YYY" "no such type") (requestDeps chainTokens)
              containerDeps [] None None _ eq_refl) as [Hin _].
  unfold sampleHandleRequest. rewrite (Hin eq_refl). reflexivity.
Defined.

Lemma unknown_trade_type_throws_witness :
  (sampleHandleRequest (query "AAA" "BBB" "exact")
     (requestDeps chainTokens) containerDeps []).1 = Throw (Error "").
Proof.
  unfold sampleHandleRequest.
  rewrite (unknown_trade_type_throws Z unit unit (fun a : Z => a) toString
             fromRaw swapConfig sameCurrency wrappedOf noRouteString
             (query "AAA" "BBB" "exact") (requestDeps chainTokens)
             containerDeps [] (Tok tokA) (Tok tokB) _ None
             eq_refl eq_refl eq_refl); [reflexivity|discriminate..].
Defined.

Lemma no_route_is_404_witness :
  (sampleHandleRequest (query "AAA" "BBB" "exactOut")
     (requestDeps chainTokens) containerDeps []).1 =
    Return (inr {| error_statusCode := 404; errorCode := "NO_ROUTE";
                   detail := Some "No route found" |}).
Proof.
  destruct (no_route_is_404 Z unit unit (fun a : Z => a) toString fromRaw
              swapConfig sameCurrency wrappedOf noRouteString
              (query "AAA" "BBB" "exactOut") (requestDeps chainTokens)
              containerDeps [] (Tok tokA) (Tok tokB) _ None
              eq_refl eq_refl eq_refl) as (tr2 & Hrun).
  - right. split; [reflexivity|]. exists 50%Z. split; reflexivity.
  - unfold sampleHandleRequest. rewrite Hrun. reflexivity.
Defined.

Lemma quote_route_graph_witness :
  ∃ b, (sampleHandleRequest (query "AAA" "BBB" "exactIn")
          (requestDeps chainTokens) containerDeps []).1 =
         Return (inl {| statusCode := 200; body := b |}) ∧
       NoDup (node_id <$> routeNodes b) ∧
       length (routeEdges b) = 2%nat ∧
       res_quote b = "47".
Proof.
  destruct (quote_route_graph Z unit unit (fun a : Z => a) toString fromRaw
              swapConfig sameCurrency wrappedOf noRouteString
              (query "AAA" "BBB" "exactIn") (requestDeps chainTokens)
              containerDeps [] (Tok tokA) (Tok tokB) _ None foundRoute
              eq_refl eq_refl eq_refl) as [Hok _].
  - left. split; [reflexivity|]. exists 50%Z. split; reflexivity.
  - destruct Hok as (tr2 & b & Hrun & Hnd & Hlen & _ & Hquote & _).
    { repeat constructor. }
    exists b. unfold sampleHandleRequest. rewrite Hrun.
    split; [reflexivity|]. split; [exact Hnd|]. split; [exact Hlen|].
    exact Hquote.
Defined.

Lemma quote_status_codes_witness :
  error_statusCode
    {| error_statusCode := 404; errorCode := "NO_ROUTE";
       detail := Some "No route found" |} ∈ Handler.errorStatusCodes.
Proof.
  pose proof (quote_status_codes Z unit unit (fun a : Z => a) toString fromRaw
                swapConfig sameCurrency wrappedOf noRouteString
                (query "AAA" "BBB" "exactOut") (requestDeps chainTokens)
                containerDeps []
                (inr {| error_statusCode := 404; errorCode := "NO_ROUTE";
                        detail := Some "No route found" |}) _ eq_refl)
    as (_ & _ & Hcode).
  exact Hcode.
Defined.

End QuoteHandlerFacts.

(** * Further properties of the handler *)

Module HandlerMore.
Import Handler Vocabulary.

Ltac run_handler := HandlerFacts.run_handler.
Ltac stage H := rewrite ?H; cbv beta iota.

Section Facts.
Context {CInj RInj MetricsLogger : Type} `{BaseRInj RInj}.
Variable JSON : JSONRuntime.
Variable INTERNAL_ERROR : APIGatewayProxyResult.
Local Abbreviation APIGLambdaHandler := (APIGLambdaHandler CInj RInj MetricsLogger).
Local Abbreviation handler :=
  (@Handler.handler CInj RInj MetricsLogger _ JSON INTERNAL_ERROR).
Local Abbreviation parseAndValidateRequest :=
  (@Handler.parseAndValidateRequest CInj RInj MetricsLogger JSON).

Local Abbreviation started this context :=
  {| record_logger := logger0 this context; record_level := INFO;
     record_err := None; record_msg := "Request started." |}.
Local Abbreviation invoking ri :=
  {| record_logger := log ri; record_level := INFO;
     record_err := None; record_msg := "Invoking handle request" |}.

(** X17. A request that is rejected (422 or 400) is answered before the
    injector or the business logic is touched: the answer is given whatever
    state the injector is in, even never built, and only the opening record
    is logged. *)
Theorem invalid_request_short_circuits (this : APIGLambdaHandler)
    metric event context tr r :
  parseAndValidateRequest this event = Return (invalid r) →
  ∀ inj handle,
    handler {| handlerName := handlerName this;
               injector := inj;
               handleRequest := handle;
               requestBodySchema := requestBodySchema this;
               responseBodySchema := responseBodySchema this |}
      metric event context tr =
    (Return r, (tr ++ [started this context])%list).
Proof.
  intros Hreq inj handle. run_handler.
  assert (Hreq' : Handler.parseAndValidateRequest JSON
            {| handlerName := handlerName this; injector := inj;
               handleRequest := handle;
               requestBodySchema := requestBodySchema this;
               responseBodySchema := responseBodySchema this |} event =
            Return (invalid r)) by exact Hreq.
  by stage Hreq'.
Qed.

(** X18. An exception of the business logic is answered with the generic
    500 response and logged exactly once, at [error] level, with the
    exception itself, through the logger that came with the request
    dependencies; the response schema is not consulted. *)
Theorem business_exception_logged_once (this : APIGLambdaHandler)
    metric event context tr request c ri e :
  parseAndValidateRequest this event = Return (valid request) →
  containerInjected (injector this) = Some c →
  getRequestInjected (injector this) c request event context
    (logger0 this context) metric = Return ri →
  handleRequest this (paramsOf event context request c ri) = Throw e →
  handler this metric event context tr =
    (Return INTERNAL_ERROR,
     (tr ++ [ started this context; invoking ri;
              {| record_logger := log ri; record_level := ERROR;
                 record_err := Some e;
                 record_msg := "Unexpected error in handler" |} ])%list).
Proof.
  intros Hreq Hc%HandlerFacts.getContainerInjected_built Hri Hres.
  unfold logger0 in *. unfold paramsOf in Hres.
  run_handler. stage Hreq. stage Hc. stage Hri. stage Hres.
  by rewrite <- !app_assoc.
Qed.

(** X19. A failure to build the request dependencies is answered with the
    generic 500 response and logged with the exception through the logger
    created at the start of the request; the business logic is not invoked
    (nothing is assumed about it). *)
Theorem dependency_failure_logged (this : APIGLambdaHandler)
    metric event context tr request c e :
  parseAndValidateRequest this event = Return (valid request) →
  containerInjected (injector this) = Some c →
  getRequestInjected (injector this) c request event context
    (logger0 this context) metric = Throw e →
  handler this metric event context tr =
    (Return INTERNAL_ERROR,
     (tr ++ [ started this context;
              {| record_logger := logger0 this context; record_level := ERROR;
                 record_err := Some e;
                 record_msg := "Error building request injected." |} ])%list).
Proof.
  intros Hreq Hc%HandlerFacts.getContainerInjected_built Hri.
  unfold logger0 in *.
  run_handler. stage Hreq. stage Hc. stage Hri.
  by rewrite <- !app_assoc.
Qed.

Ltac not_final :=
  intros (? & ? & ? & ? & ? & ? & ? & ? & ? & ?);
  unfold logger0, paramsOf in *; congruence.

Ltac not_guarded :=
  intros [[? ?]|(? & ? & [[? ?]|(? & ? &
    [[? ?]|(? & ? & [[? [? ?]]|[? [? ?]]])])])];
  unfold logger0, paramsOf in *; congruence.


End Facts.

Import Samples.

(** An unparseable body is answered with 422 although the injector was
    never built. *)
Lemma invalid_request_short_circuits_witness :
  (handler sampleJSON sampleINTERNAL_ERROR
     (echoHandler sampleInjector None None) tt
     (eventOf "nope") sampleContext []).1 =
    Return {| statusCode := 422; body := "" |}.
Proof.
  rewrite (invalid_request_short_circuits sampleJSON sampleINTERNAL_ERROR
             (echoHandler builtInjector None None) tt (eventOf "nope")
             sampleContext [] {| statusCode := 422; body := "" |} eq_refl
             sampleInjector
             (fun p => Return (Response 200 (params_request p)))).
  reflexivity.
Defined.

Lemma business_exception_logged_once_witness :
  errorsLogged
    (handler sampleJSON sampleINTERNAL_ERROR throwingHandler tt (eventOf "{}")
       sampleContext []).2 =
    [Error "boom"].
Proof.
  rewrite (business_exception_logged_once sampleJSON sampleINTERNAL_ERROR
             throwingHandler tt
             (eventOf "{}") sampleContext [] (VObj []) 7%Z refinedLogger
             (Error "boom") eq_refl eq_refl eq_refl eq_refl).
  reflexivity.
Defined.

Lemma dependency_failure_logged_witness :
  handler sampleJSON sampleINTERNAL_ERROR HandlerSamples.noDepsHandler tt
    (eventOf "{}") sampleContext [] =
    (Return sampleINTERNAL_ERROR,
     [ {| record_logger := {| logger_name := "echo"; requestId := "req-1" |};
          record_level := INFO; record_err := None;
          record_msg := "Request started." |};
       {| record_logger := {| logger_name := "echo"; requestId := "req-1" |};
          record_level := ERROR; record_err := Some (Error "no rpc");
          record_msg := "Error building request injected." |} ]).
Proof.
  rewrite (dependency_failure_logged sampleJSON sampleINTERNAL_ERROR
             HandlerSamples.noDepsHandler
             tt (eventOf "{}") sampleContext [] (VObj []) 7%Z (Error "no rpc")
             eq_refl eq_refl eq_refl).
  reflexivity.
Defined.


End HandlerMore.
